(** * unbounded-async-channel: the linked-list queue and the channel built on it

    A shallow embedding of [linked-list-queue.ts] and [index.ts].

    - Objects allocated by the code (queue nodes, promises) live in explicit
      stores: a [list] indexed by allocation order, so that a reference is
      the index at which the object was allocated and a field assignment
      such as [rear.next = node] is an in-place update that every holder of
      the reference observes.
    - [size] is a JavaScript number; it is modelled as [Z] (the counter only
      moves by [++] and [--], exact far beyond any queue that fits in
      memory).
    - A promise is a cell that is either pending or fulfilled with a
      [MaybeClosedResult]; its [resolve] function is identified with the
      promise it settles, and calling it on a fulfilled promise does
      nothing, as in JavaScript.  Micro-task timing is not modelled: a
      reader "receives" a result as soon as the promise it awaits is
      fulfilled in the store. *)

From Stdlib Require Import ZArith String.
From stdpp Require Import base option list.

Local Open Scope Z_scope.

(* ================================================================== *)
(** * Definitions *)
(* ================================================================== *)

(** ** [createLinkedListQueue] *)

Module LinkedListQueue.

(** A reference to a node: its index in the node store. *)
Abbreviation ref := nat.

Section Defs.
Context {T : Type}.

(** [type Node<T> = { value: T; next: Node<T> | null }] *)
Record Node := mkNode { value : T; next : option ref }.

(** The closure state of one queue: the nodes it has allocated and the
    three captured variables [front], [rear] and [size]. *)
Record Queue := mkQueue {
  nodes : list Node;
  front : option ref;
  rear : option ref;
  size : Z
}.

Definition createLinkedListQueue : Queue := mkQueue [] None None 0.

(** [rear.next = node] *)
Definition set_next (node : ref) (n : Node) : Node :=
  mkNode (value n) (Some node).

(** [enqueue]: the new node is allocated first, then linked. *)
Definition enqueue (q : Queue) (v : T) : Queue :=
  let node := length (nodes q) in
  let store := nodes q ++ [mkNode v None] in
  match rear q with
  | None => mkQueue store (Some node) (Some node) (size q + 1)
  | Some r =>
      mkQueue (alter (set_next node) r store) (front q) (Some node)
              (size q + 1)
  end.

(** [dequeue]: [None] is the [null] result.  A reference always names an
    allocated node in JavaScript; the store lookup that cannot fail there
    is given the [null] result here. *)
Definition dequeue (q : Queue) : Queue * option T :=
  match front q with
  | None => (q, None)
  | Some f =>
      match nodes q !! f with
      | None => (q, None)
      | Some node =>
          let front' := next node in
          let rear' := match front' with
                       | None => None
                       | Some _ => rear q
                       end in
          (mkQueue (nodes q) front' rear' (size q - 1), Some (value node))
      end
  end.

(** The generator object returned by [[Symbol.iterator]]().  The body of
    a generator function does not start before the first [next()], so a
    new iterator has not read [front] yet; once started it is suspended
    at the [yield], holding its local variable [node]. *)
Inductive Iterator :=
| NotStarted
| AtYield (node : ref)
| Completed.

(** The [while (node !== null) { yield node.value; ... }] test for the
    current value of the local [node]. *)
Definition yield_at (q : Queue) (node : option ref) : Iterator * option T :=
  match node with
  | None => (Completed, None)
  | Some l =>
      match nodes q !! l with
      | None => (Completed, None)
      | Some n => (AtYield l, Some (value n))
      end
  end.

(** One call of the iterator's [next()]; [None] is [{done: true}].  The
    queue is read as it is at the time of the call. *)
Definition iter_next (q : Queue) (it : Iterator) : Iterator * option T :=
  match it with
  | NotStarted => yield_at q (front q)
  | AtYield l =>
      match nodes q !! l with
      | None => (Completed, None)
      | Some n => yield_at q (next n)
      end
  | Completed => (Completed, None)
  end.

(** [for (const x of q) s = body x s] for a body that leaves the queue
    alone.  The loop has no bound in the source; [None] stands for a
    traversal that has not finished within [fuel] calls of [next()]. *)
Fixpoint for_of {S : Type} (fuel : nat) (q : Queue) (it : Iterator)
    (body : T → S → S) (s : S) : option S :=
  match fuel with
  | O => None
  | Datatypes.S fuel' =>
      match iter_next q it with
      | (_, None) => Some s
      | (it', Some v) => for_of fuel' q it' body (body v s)
      end
  end.

(** A chain of distinct nodes has at most as many nodes as were ever
    allocated, so this many calls of [next()] exhaust any iterator over a
    chain that is not cyclic. *)
Definition traversal_fuel (q : Queue) : nat := Datatypes.S (length (nodes q)).

(** Calling [dequeue] until it answers [null]: the elements held by the
    queue, in the order in which they will leave it. *)
Fixpoint drain (fuel : nat) (q : Queue) : list T :=
  match fuel with
  | O => []
  | Datatypes.S fuel' =>
      match dequeue q with
      | (q', Some v) => v :: drain fuel' q'
      | (_, None) => []
      end
  end.

Definition elements (q : Queue) : list T := drain (length (nodes q)) q.

(** *** A client that interleaves queue operations with one iterator *)

Inductive Action :=
| DoEnqueue (v : T)
| DoDequeue
| DoNext.

(** What the client has observed so far. *)
Record Client := mkClient {
  cl_queue : Queue;
  cl_iter : Iterator;
  cl_yielded : list T;          (* values produced by [next()] *)
  cl_dequeued : list (option T) (* results of the [dequeue()] calls *)
}.

(** The client right after [q[Symbol.iterator]()]. *)
Definition request_iterator (q : Queue) : Client := mkClient q NotStarted [] [].

Definition act (c : Client) (a : Action) : Client :=
  match a with
  | DoEnqueue v =>
      mkClient (enqueue (cl_queue c) v) (cl_iter c) (cl_yielded c)
               (cl_dequeued c)
  | DoDequeue =>
      let '(q', r) := dequeue (cl_queue c) in
      mkClient q' (cl_iter c) (cl_yielded c) (cl_dequeued c ++ [r])
  | DoNext =>
      let '(it', r) := iter_next (cl_queue c) (cl_iter c) in
      mkClient (cl_queue c) it'
               (match r with
                | Some v => cl_yielded c ++ [v]
                | None => cl_yielded c
                end)
               (cl_dequeued c)
  end.

Definition perform (c : Client) (sched : list Action) : Client :=
  foldl act c sched.

Definition is_queue_op (a : Action) : bool :=
  match a with
  | DoNext => false
  | _ => true
  end.

(** The queue operations alone. *)
Definition queue_ops (sched : list Action) : list Action :=
  filter (λ a, is_queue_op a = true) sched.

(** Queues that a client can hold: built from [createLinkedListQueue] by
    [enqueue] and [dequeue] only. *)
Definition only_queue_ops (sched : list Action) : Prop :=
  Forall (λ a, is_queue_op a = true) sched.

Definition queue_reachable (q : Queue) : Prop :=
  ∃ sched, only_queue_ops sched ∧
           q = cl_queue (perform (request_iterator createLinkedListQueue) sched).

(** *** Representation invariant *)

(** [chain store p cells]: following [next] from [p] visits exactly the
    nodes [cells] (reference and value) and then reaches [null]. *)
Fixpoint chain (store : list Node) (p : option ref)
    (cells : list (ref * T)) : Prop :=
  match cells with
  | [] => p = None
  | (l, v) :: rest =>
      p = Some l ∧
      ∃ nx, store !! l = Some (mkNode v nx) ∧ chain store nx rest
  end.

Record queue_inv (q : Queue) (cells : list (ref * T)) : Prop := {
  inv_chain : chain (nodes q) (front q) cells;
  inv_rear : rear q = last (cells.*1);
  inv_size : size q = Z.of_nat (length cells);
  inv_nodup : NoDup (cells.*1);
  inv_bound : (length cells ≤ length (nodes q))%nat
}.

(** The queue holds exactly [vs], oldest first. *)
Definition represents (q : Queue) (vs : list T) : Prop :=
  ∃ cells, queue_inv q cells ∧ cells.*2 = vs.

(** [for (const v of vs) q.enqueue(v)] *)
Definition enqueue_all (q : Queue) (vs : list T) : Queue := foldl enqueue q vs.

End Defs.

Arguments Node : clear implicits.
Arguments Queue : clear implicits.
Arguments Action : clear implicits.
Arguments Client : clear implicits.

End LinkedListQueue.

(** ** [createUnboundedAsyncChannel] *)

Module UnboundedAsyncChannel.
Module Q := LinkedListQueue.

(** A promise is named by its index in the promise store.  The [resolve]
    function handed to the executor of promise [p] is represented by [p]
    itself. *)
Abbreviation PromiseRef := nat.
Abbreviation Resolver := nat.

Section Defs.
Context {T E : Type}.

(** [type MaybeClosedResult<T> =
      { closed: false; value: T } | { closed: true; error?: Error }] *)
Inductive MaybeClosedResult :=
| NotClosed (value : T)
| Closed (error : option E).

(** A store cell is [None] while the promise is pending. *)
Abbreviation PromiseState := (option MaybeClosedResult).

(** The closure state of one channel, with the promises it has created. *)
Record Channel := mkChannel {
  promises : Q.Queue PromiseRef;
  resolvers : Q.Queue Resolver;
  closed : bool;
  error : option E;
  heap : list PromiseState
}.

Definition createUnboundedAsyncChannel : Channel :=
  mkChannel Q.createLinkedListQueue Q.createLinkedListQueue false None [].

(** Calling a [resolve] function: settles a pending promise, and does
    nothing to one that is already fulfilled. *)
Definition resolve (p : Resolver) (r : MaybeClosedResult)
    (h : list PromiseState) : list PromiseState :=
  match h !! p with
  | Some None => <[p := Some r]> h
  | _ => h
  end.

(** [addPromise]: the executor runs inside [new Promise], so the resolver
    is enqueued before the promise is. *)
Definition addPromise (ch : Channel) : Channel :=
  let p := length (heap ch) in
  mkChannel (Q.enqueue (promises ch) p) (Q.enqueue (resolvers ch) p)
            (closed ch) (error ch) (heap ch ++ [None]).

(** How a synchronous call ends. *)
Inductive Completion (A : Type) :=
| Returns (a : A)
| ThrowsTypeError   (* a [null] was called as a function *)
| Diverges.         (* a loop did not finish *)
Global Arguments Returns {A} a.
Global Arguments ThrowsTypeError {A}.
Global Arguments Diverges {A}.

(** [if (error) return {closed: true, error} else return {closed: true}] *)
Definition closed_result (ch : Channel) : MaybeClosedResult :=
  match error ch with
  | Some e => Closed (Some e)
  | None => Closed None
  end.

(** [if (resolvers.size === 0) addPromise();] *)
Definition ensure_resolver (ch : Channel) : Channel :=
  if Q.size (resolvers ch) =? 0 then addPromise ch else ch.

(** [if (promises.size === 0) addPromise();] *)
Definition ensure_promise (ch : Channel) : Channel :=
  if Q.size (promises ch) =? 0 then addPromise ch else ch.

Definition write (ch : Channel) (value : T)
    : Channel * Completion MaybeClosedResult :=
  if closed ch then (ch, Returns (closed_result ch))
  else
    let ch1 := ensure_resolver ch in
    match Q.dequeue (resolvers ch1) with
    | (rq, Some res) =>
        (mkChannel (promises ch1) rq (closed ch1) (error ch1)
                   (resolve res (NotClosed value) (heap ch1)),
         Returns (NotClosed value))
    | (rq, None) =>
        (mkChannel (promises ch1) rq (closed ch1) (error ch1) (heap ch1),
         ThrowsTypeError)
    end.

(** What the promise returned by the [async] function [read] is resolved
    with: a result object, one of the channel's own promises (whose
    eventual state it then takes), or the [null] that [dequeue] answers
    on an empty queue. *)
Inductive ReadResult :=
| Direct (r : MaybeClosedResult)
| Slot (p : PromiseRef)
| Null.

Definition read (ch : Channel) : Channel * ReadResult :=
  if closed ch && (Q.size (promises ch) =? 0) then
    (ch, Direct (closed_result ch))
  else
    let ch1 := ensure_promise ch in
    match Q.dequeue (promises ch1) with
    | (pq, Some p) =>
        (mkChannel pq (resolvers ch1) (closed ch1) (error ch1) (heap ch1),
         Slot p)
    | (pq, None) =>
        (mkChannel pq (resolvers ch1) (closed ch1) (error ch1) (heap ch1),
         Null)
    end.

(** The body of the [for (const resolve of resolvers)] loop in [close]. *)
Definition notify_closed (err : option E) (res : Resolver)
    (h : list PromiseState) : list PromiseState :=
  match err with
  | Some e => resolve res (Closed (Some e)) h
  | None => resolve res (Closed None) h
  end.

Definition close (ch : Channel) (err : option E)
    : Channel * Completion unit :=
  if closed ch then (ch, Returns tt)
  else
    match Q.for_of (Q.traversal_fuel (resolvers ch)) (resolvers ch)
                   Q.NotStarted (notify_closed err) (heap ch) with
    | Some h =>
        (mkChannel (promises ch) (resolvers ch) true err h, Returns tt)
    | None =>
        (mkChannel (promises ch) (resolvers ch) true err (heap ch), Diverges)
    end.

(** [get state() { return { closed, error }; }] *)
Record State := mkState { st_closed : bool; st_error : option E }.

Definition state (ch : Channel) : State := mkState (closed ch) (error ch).

(** What a caller that awaits the result of [read] has received in the
    current store: [None] while the promise it awaits is pending. *)
Definition received (ch : Channel) (rr : ReadResult)
    : option MaybeClosedResult :=
  match rr with
  | Direct r => Some r
  | Slot p =>
      match heap ch !! p with
      | Some st => st
      | None => None
      end
  | Null => None
  end.

(** *** [[Symbol.asyncIterator]] *)

(** How one pass through the body of the generator's [while (true)]
    leaves it. *)
Inductive GenStep :=
| Yields (v : T)
| Breaks                     (* closed without error: the generator returns *)
| Throws (e : E)             (* closed with error: [throw res.error] *)
| Awaits (p : PromiseRef)    (* suspended at [await this.read()] *)
| NullRead.                  (* [res.closed] on [null] *)

Definition examine (r : MaybeClosedResult) : GenStep :=
  match r with
  | Closed (Some e) => Throws e
  | Closed None => Breaks
  | NotClosed v => Yields v
  end.

Definition generator_next (ch : Channel) : Channel * GenStep :=
  let '(ch', rr) := read ch in
  match rr with
  | Direct r => (ch', examine r)
  | Slot p =>
      match received ch' rr with
      | Some r => (ch', examine r)
      | None => (ch', Awaits p)
      end
  | Null => (ch', NullRead)
  end.

(** How [for await (const v of channel) values.push(v)] ends when no
    other task touches the channel meanwhile. *)
Inductive IterationEnd :=
| EndsCleanly
| Fails (e : E)
| Suspended (p : PromiseRef)
| FailsTypeError
| Unfinished.

Fixpoint for_await (fuel : nat) (ch : Channel) (values : list T)
    : Channel * list T * IterationEnd :=
  match fuel with
  | O => (ch, values, Unfinished)
  | S fuel' =>
      match generator_next ch with
      | (ch', Yields v) => for_await fuel' ch' (values ++ [v])
      | (ch', Breaks) => (ch', values, EndsCleanly)
      | (ch', Throws e) => (ch', values, Fails e)
      | (ch', Awaits p) => (ch', values, Suspended p)
      | (ch', NullRead) => (ch', values, FailsTypeError)
      end
  end.

(** *** Histories of a channel *)

Inductive Op :=
| Write (v : T)
| Read
| Close (err : option E).

Definition step (ch : Channel) (op : Op) : Channel :=
  match op with
  | Write v => fst (write ch v)
  | Read => fst (read ch)
  | Close err => fst (close ch err)
  end.

Definition run (ch : Channel) (ops : list Op) : Channel := foldl step ch ops.

Definition reachable (ch : Channel) : Prop :=
  ∃ ops, ch = run createUnboundedAsyncChannel ops.

(** [for (const v of vs) channel.write(v)] *)
Definition write_all (ch : Channel) (vs : list T) : Channel :=
  foldl (λ c v, fst (write c v)) ch vs.

(** [n] calls of [read()], with what each returned. *)
Fixpoint read_n (n : nat) (ch : Channel) : Channel * list ReadResult :=
  match n with
  | O => (ch, [])
  | S n' =>
      let '(ch1, r) := read ch in
      let '(ch2, rs) := read_n n' ch1 in
      (ch2, r :: rs)
  end.

(** Neither a buffered value nor a waiting reader. *)
Definition idle (ch : Channel) : Prop :=
  Q.size (promises ch) = 0 ∧ Q.size (resolvers ch) = 0.

(** The value a slot holds, if it is fulfilled with one. *)
Definition slot_value (ch : Channel) (p : PromiseRef) : option T :=
  match heap ch !! p with
  | Some (Some (NotClosed v)) => Some v
  | _ => None
  end.

(** The values written but not yet claimed by a reader, oldest first;
    [None] if some unclaimed slot does not hold a value. *)
Definition buffered_values (ch : Channel) : option (list T) :=
  mapM (slot_value ch) (Q.elements (promises ch)).

(** *** Invariant of reachable channels *)

Record chan_inv (ch : Channel) (ps rs : list PromiseRef) : Prop := {
  ci_promises : Q.represents (promises ch) ps;
  ci_resolvers : Q.represents (resolvers ch) rs;
  ci_one_empty : ps = [] ∨ rs = [];
  ci_buffered : Forall (λ p, is_Some (slot_value ch p)) ps;
  ci_nodup : NoDup rs;
  ci_appended : length (Q.nodes (promises ch)) = length (Q.nodes (resolvers ch));
  ci_waiting :
    if closed ch
    then Forall (λ r, heap ch !! r = Some (Some (Closed (error ch)))) rs
    else Forall (λ r, heap ch !! r = Some None) rs ∧ error ch = None
}.

(** *** Histories and what their readers see *)

(** A client that performs [ops] and keeps what each call of [read()]
    returned, in the order of the calls. *)
Definition observe (s : Channel * list ReadResult) (op : Op)
    : Channel * list ReadResult :=
  match op with
  | Read => let '(ch', r) := read (fst s) in (ch', snd s ++ [r])
  | _ => (step (fst s) op, snd s)
  end.

Definition run_observe (ch : Channel) (ops : list Op)
    : Channel * list ReadResult :=
  foldl observe (ch, []) ops.

(** The summary of a history: the values written before the channel was
    closed, and the argument of the call of [close] that closed it. *)
Record History := mkHistory {
  accepted : list T;
  closing : option (option E)
}.

Definition record_op (h : History) (op : Op) : History :=
  match op, closing h with
  | Write v, None => mkHistory (accepted h ++ [v]) None
  | Close err, None => mkHistory (accepted h) (Some err)
  | _, _ => h
  end.

Definition history (ops : list Op) : History :=
  foldl record_op (mkHistory [] None) ops.

(** What the [i]-th call of [read()] of a history is owed: the [i]-th
    accepted value; failing that the closing notice; failing that nothing
    yet. *)
Definition expected (h : History) (i : nat) : option MaybeClosedResult :=
  match accepted h !! i with
  | Some v => Some (NotClosed v)
  | None =>
      match closing h with
      | Some err => Some (Closed err)
      | None => None
      end
  end.

(** The channel reached by a history with summary [h] whose reads returned
    [R]. *)
Record hist_inv (ch : Channel) (R : list ReadResult) (h : History)
    (ps rs : list PromiseRef) : Prop := {
  hi_chan : chan_inv ch ps rs;
  hi_open :
    closing h = None →
    closed ch = false ∧ drop (length (accepted h)) R = Slot <$> rs;
  hi_closed :
    ∀ err, closing h = Some err → closed ch = true ∧ error ch = err;
  hi_buffered :
    Forall2 (λ p v, slot_value ch p = Some v) ps (drop (length R) (accepted h));
  hi_served :
    ∀ i rr v, R !! i = Some rr → accepted h !! i = Some v →
              received ch rr = Some (NotClosed v);
  hi_notified :
    ∀ err i rr, closing h = Some err → R !! i = Some rr →
                accepted h !! i = None → received ch rr = Some (Closed err)
}.

End Defs.

Arguments MaybeClosedResult : clear implicits.
Arguments Channel : clear implicits.
Arguments ReadResult : clear implicits.
Arguments State : clear implicits.
Arguments GenStep : clear implicits.
Arguments IterationEnd : clear implicits.
Arguments Op : clear implicits.
Arguments History : clear implicits.

End UnboundedAsyncChannel.

(* ================================================================== *)
(** * The linked-list queue *)
(* ================================================================== *)

Module QueueFacts.
Import LinkedListQueue.
Section Facts.
Context {T : Type}.
Implicit Types (q : Queue T) (v : T) (vs : list T)
         (cells : list (ref * T)) (store : list (Node T)).

(** *** Chains *)

Lemma chain_refs_allocated store p cells :
  chain store p cells → Forall (λ l, (l < length store)%nat) (cells.*1).
Proof.
  revert p. induction cells as [|[l x] rest IH]; intros p; simpl.
  - constructor.
  - intros (_ & nx & Hl & Hrest). constructor; [|by eapply IH].
    by eapply lookup_lt_Some.
Qed.

Lemma chain_alloc store p cells n :
  chain store p cells → chain (store ++ [n]) p cells.
Proof.
  revert p. induction cells as [|[l x] rest IH]; intros p; simpl; [done|].
  intros (-> & nx & Hl & Hrest). split; [done|]. exists nx. split.
  - by apply lookup_app_l_Some.
  - by apply IH.
Qed.

(** Linking a fresh node behind the last node of a chain. *)
Lemma chain_link store p cells r v :
  chain store p cells →
  last (cells.*1) = Some r →
  NoDup (cells.*1) →
  chain (alter (set_next (length store)) r (store ++ [mkNode v None])) p
        (cells ++ [(length store, v)]).
Proof.
  revert p. induction cells as [|[l x] rest IH]; intros p; [done|].
  intros (-> & nx & Hl & Hrest) Hlast Hnd. split; [done|].
  assert (Hr : (r < length store)%nat).
  { pose proof (chain_refs_allocated store (Some l) ((l, x) :: rest)) as Hall.
    rewrite Forall_forall in Hall. apply Hall.
    - simpl. eauto.
    - apply last_Some_elem_of in Hlast. done. }
  destruct rest as [|[l2 x2] rest'].
  - simpl in Hrest, Hlast. subst nx. injection Hlast as ->.
    exists (Some (length store)). split.
    + rewrite list_lookup_alter_eq.
      by rewrite (lookup_app_l_Some _ _ _ _ Hl).
    + simpl. split; [done|]. exists None. split; [|done].
      rewrite list_lookup_alter_ne by lia.
      by rewrite list_lookup_middle.
  - assert (Hlast' : last (((l2, x2) :: rest').*1) = Some r) by exact Hlast.
    apply NoDup_cons in Hnd as [Hnotin Hnd'].
    assert (l ≠ r) as Hne.
    { intros ->. apply Hnotin. by eapply last_Some_elem_of. }
    exists nx. split.
    + rewrite list_lookup_alter_ne by done. by apply lookup_app_l_Some.
    + by apply IH.
Qed.

(** *** The operations preserve the representation invariant *)

Lemma create_inv : queue_inv (createLinkedListQueue (T:=T)) [].
Proof. split; simpl; try done. constructor. Qed.

Lemma enqueue_inv q cells v :
  queue_inv q cells →
  queue_inv (enqueue q v) (cells ++ [(length (nodes q), v)]).
Proof.
  intros [Hch Hrear Hsize Hnd Hb].
  assert (Hnd' : NoDup ((cells ++ [(length (nodes q), v)]).*1)).
  { rewrite fmap_app. apply NoDup_app. split; [done|]. split.
    - intros l Hin Hin'. apply list_elem_of_singleton in Hin'. subst l.
      pose proof (chain_refs_allocated _ _ _ Hch) as Hall.
      rewrite Forall_forall in Hall. apply Hall in Hin. simpl in Hin. lia.
    - apply NoDup_singleton. }
  unfold enqueue. destruct (rear q) as [r|] eqn:Hr.
  - split; simpl.
    + apply chain_link; [done| |done]. by rewrite <- Hrear.
    + rewrite fmap_app. simpl. by rewrite last_snoc.
    + rewrite length_app; simpl. lia.
    + done.
    + rewrite length_alter, !length_app; simpl. lia.
  - assert (cells = []) as ->.
    { destruct cells as [|c cells] using rev_ind; [done|].
      rewrite fmap_app in Hrear. simpl in Hrear.
      by rewrite last_snoc in Hrear. }
    simpl in Hch. split; simpl.
    + split; [done|]. exists None. split; [|done].
      by rewrite list_lookup_middle.
    + done.
    + simpl in Hsize. lia.
    + done.
    + rewrite length_app; simpl. lia.
Qed.

Lemma dequeue_inv q l v cells :
  queue_inv q ((l, v) :: cells) →
  ∃ q', dequeue q = (q', Some v) ∧ queue_inv q' cells ∧ nodes q' = nodes q.
Proof.
  intros [Hch Hrear Hsize Hnd Hb]. simpl in Hch.
  destruct Hch as (Hf & nx & Hl & Hrest).
  unfold dequeue. rewrite Hf, Hl. simpl. eexists. split; [done|].
  split; [|done]. split; simpl.
  - done.
  - destruct cells as [|[l2 x2] rest]; simpl in Hrest.
    + by subst nx.
    + destruct Hrest as [-> _]. rewrite Hrear.
      by rewrite !fmap_cons, last_cons_cons.
  - rewrite Hsize. simpl length. lia.
  - by apply NoDup_cons in Hnd as [_ ?].
  - simpl in Hb. lia.
Qed.

Lemma enqueue_size q v : size (enqueue q v) = size q + 1.
Proof. unfold enqueue. by destruct (rear q). Qed.

Lemma enqueue_allocates q v :
  length (nodes (enqueue q v)) = Datatypes.S (length (nodes q)).
Proof.
  unfold enqueue. destruct (rear q); simpl;
    rewrite ?length_alter, length_app; simpl; lia.
Qed.

Lemma dequeue_inv_nil q : queue_inv q [] → dequeue q = (q, None).
Proof. intros [Hch _ _ _ _]. simpl in Hch. unfold dequeue. by rewrite Hch. Qed.

(** *** Specifications in terms of the represented list *)

Lemma represents_create : represents (createLinkedListQueue (T:=T)) [].
Proof. exists []. split; [apply create_inv|done]. Qed.

Lemma represents_enqueue q vs v :
  represents q vs → represents (enqueue q v) (vs ++ [v]).
Proof.
  intros (cells & Hinv & <-). eexists. split; [by apply enqueue_inv|].
  by rewrite fmap_app.
Qed.

Lemma represents_dequeue q v vs :
  represents q (v :: vs) →
  ∃ q', dequeue q = (q', Some v) ∧ represents q' vs ∧ nodes q' = nodes q.
Proof.
  intros (cells & Hinv & Hvs). destruct cells as [|[l x] cells]; [done|].
  simpl in Hvs. injection Hvs as -> <-.
  destruct (dequeue_inv _ _ _ _ Hinv) as (q' & Hd & Hinv' & Hn).
  exists q'. split; [done|]. split; [|done]. by exists cells.
Qed.

Lemma represents_dequeue_nil q : represents q [] → dequeue q = (q, None).
Proof.
  intros (cells & Hinv & Hvs). destruct cells; [|done].
  by apply dequeue_inv_nil.
Qed.

Lemma represents_size q vs : represents q vs → size q = Z.of_nat (length vs).
Proof. intros (cells & [_ _ Hs _ _] & <-). by rewrite length_fmap. Qed.

Lemma represents_size_0 q vs : represents q vs → (size q =? 0) = true → vs = [].
Proof.
  intros Hr Hz. apply represents_size in Hr. apply Z.eqb_eq in Hz.
  destruct vs; [done|]. simpl in Hr. lia.
Qed.

Lemma represents_size_pos q vs :
  represents q vs → (size q =? 0) = false → ∃ v vs', vs = v :: vs'.
Proof.
  intros Hr Hz. apply represents_size in Hr. apply Z.eqb_neq in Hz.
  destruct vs as [|v vs']; [done|]. eauto.
Qed.

Lemma represents_bound q vs :
  represents q vs → (length vs ≤ length (nodes q))%nat.
Proof. intros (cells & [_ _ _ _ Hb] & <-). by rewrite length_fmap. Qed.

Lemma drain_represents fuel q vs :
  represents q vs → (length vs ≤ fuel)%nat → drain fuel q = vs.
Proof.
  revert q vs. induction fuel as [|fuel IH]; intros q vs Hr Hlen.
  - destruct vs; [done|]. simpl in Hlen. lia.
  - simpl. destruct vs as [|v vs].
    + by rewrite (represents_dequeue_nil _ Hr).
    + destruct (represents_dequeue _ _ _ Hr) as (q' & -> & Hr' & _).
      f_equal. apply IH; [done|]. simpl in Hlen. lia.
Qed.

Lemma elements_represents q vs : represents q vs → elements q = vs.
Proof.
  intros Hr. apply drain_represents; [done|]. by apply represents_bound.
Qed.

Lemma represents_unique q vs vs' : represents q vs → represents q vs' → vs = vs'.
Proof.
  intros H1 H2. apply elements_represents in H1, H2. congruence.
Qed.

(** *** The iterator *)

Lemma iter_next_at q l v nx :
  nodes q !! l = Some (mkNode v nx) → iter_next q (AtYield l) = yield_at q nx.
Proof. intros Hl. simpl. by rewrite Hl. Qed.

Lemma yield_at_cell q l v nx :
  nodes q !! l = Some (mkNode v nx) → yield_at q (Some l) = (AtYield l, Some v).
Proof. intros Hl. simpl. by rewrite Hl. Qed.

(** A [for ... of] loop over an iterator whose next node is the head of
    a chain runs its body on the values of the chain, in order. *)
Lemma for_of_chain {S : Type} (body : T → S → S) q cells :
  ∀ p it s fuel,
    iter_next q it = yield_at q p →
    chain (nodes q) p cells →
    (length cells < fuel)%nat →
    for_of fuel q it body s = Some (foldl (λ s v, body v s) s (cells.*2)).
Proof.
  induction cells as [|[l x] rest IH]; intros p it s fuel Hnext Hch Hfuel;
    (destruct fuel as [|fuel]; [simpl in Hfuel; lia|]); simpl in Hch |- *.
  - rewrite Hnext, Hch. done.
  - destruct Hch as (-> & nx & Hl & Hrest).
    rewrite Hnext, (yield_at_cell _ _ _ _ Hl).
    apply (IH nx); [by eapply iter_next_at|done|simpl in Hfuel; lia].
Qed.

Lemma for_of_represents {S : Type} (body : T → S → S) q vs s :
  represents q vs →
  for_of (traversal_fuel q) q NotStarted body s
  = Some (foldl (λ s v, body v s) s vs).
Proof.
  intros (cells & [Hch _ _ _ Hb] & <-).
  apply (for_of_chain body q cells (front q)); [done|done|].
  unfold traversal_fuel. lia.
Qed.

Lemma perform_cons (c : Client T) a sched :
  perform c (a :: sched) = perform (act c a) sched.
Proof. done. Qed.

Lemma act_next q it ys ds it' r :
  iter_next q it = (it', r) →
  act (mkClient q it ys ds) DoNext
  = mkClient q it' (match r with Some v => ys ++ [v] | None => ys end) ds.
Proof. intros Hn. unfold act. simpl. by rewrite Hn. Qed.

(** Calling [next()] until it reports [done], with nothing in between. *)
Lemma perform_next_chain q cells :
  ∀ p it ys ds,
    iter_next q it = yield_at q p →
    chain (nodes q) p cells →
    perform (mkClient q it ys ds) (replicate (S (length cells)) DoNext)
    = mkClient q Completed (ys ++ cells.*2) ds.
Proof.
  induction cells as [|[l x] rest IH]; intros p it ys ds Hnext Hch;
    simpl in Hch; simpl length; rewrite replicate_S, perform_cons.
  - rewrite Hch in Hnext. rewrite (act_next _ _ _ _ _ _ Hnext).
    simpl. by rewrite app_nil_r.
  - destruct Hch as (-> & nx & Hl & Hrest).
    rewrite (yield_at_cell _ _ _ _ Hl) in Hnext.
    rewrite (act_next _ _ _ _ _ _ Hnext).
    rewrite (IH nx (AtYield l) (ys ++ [x]) ds (iter_next_at _ _ _ _ Hl) Hrest).
    simpl. by rewrite <- app_assoc.
Qed.

(** *** Clients *)

Lemma act_represents (c : Client T) a vs :
  represents (cl_queue c) vs → ∃ vs', represents (cl_queue (act c a)) vs'.
Proof.
  intros Hr. destruct a as [v| |]; simpl.
  - eexists. by apply represents_enqueue.
  - destruct vs as [|v vs].
    + rewrite (represents_dequeue_nil _ Hr). simpl. eauto.
    + destruct (represents_dequeue _ _ _ Hr) as (q' & -> & Hr' & _).
      simpl. eauto.
  - destruct (iter_next _ _). simpl. eauto.
Qed.

Lemma perform_represents sched : ∀ (c : Client T) vs,
  represents (cl_queue c) vs →
  ∃ vs', represents (cl_queue (perform c sched)) vs'.
Proof.
  unfold perform. induction sched as [|a sched IH]; intros c vs Hr; simpl.
  - eauto.
  - destruct (act_represents c a vs Hr) as (vs' & Hr'). by eapply IH.
Qed.

Lemma queue_reachable_represents q :
  queue_reachable q → ∃ vs, represents q vs.
Proof.
  intros (sched & _ & ->). eapply perform_represents. simpl.
  apply represents_create.
Qed.

(** The calls of [next()] in a schedule have no effect on the queue nor
    on what the calls of [dequeue()] answer. *)
Lemma perform_without_next sched : ∀ (c c' : Client T),
  cl_queue c = cl_queue c' →
  cl_dequeued c = cl_dequeued c' →
  cl_queue (perform c sched) = cl_queue (perform c' (queue_ops sched)) ∧
  cl_dequeued (perform c sched) = cl_dequeued (perform c' (queue_ops sched)).
Proof.
  unfold perform, queue_ops.
  induction sched as [|a sched IH]; intros c c' Hq Hd; [done|].
  destruct a as [v| |].
  - rewrite filter_cons_True by done. simpl. apply IH; simpl; congruence.
  - rewrite filter_cons_True by done. simpl. apply IH; simpl; rewrite Hq;
      destruct (dequeue (cl_queue c')); simpl; congruence.
  - rewrite filter_cons_False by done. simpl. apply IH; simpl;
      destruct (iter_next (cl_queue c) (cl_iter c)); simpl; congruence.
Qed.

(* ================================================================== *)
(** * Iterating over a queue *)
(* ================================================================== *)

(** C8 (as the code has it).  The iterator walks the chain of nodes as it
    is when [next()] is called.  With no [enqueue] or [dequeue] between the
    request and the end of the iteration it produces exactly the elements
    of the queue, oldest first, and is finished after one more call.
    Calling [next()] never changes the queue: under any interleaving, the
    queue and the results of the [dequeue] calls are what they are without
    the calls of [next()]. *)
Theorem iterator_walks_live_chain q :
  queue_reachable q →
  perform (request_iterator q) (replicate (S (length (elements q))) DoNext)
  = mkClient q Completed (elements q) [] ∧
  ∀ sched,
    cl_queue (perform (request_iterator q) sched)
    = cl_queue (perform (request_iterator q) (queue_ops sched)) ∧
    cl_dequeued (perform (request_iterator q) sched)
    = cl_dequeued (perform (request_iterator q) (queue_ops sched)).
Proof.
  intros Hre. destruct (queue_reachable_represents _ Hre) as (vs & Hr).
  split.
  - rewrite (elements_represents _ _ Hr).
    destruct Hr as (cells & [Hch _ _ _ _] & <-). rewrite length_fmap.
    by apply (perform_next_chain q cells (front q)).
  - intros sched. by apply perform_without_next.
Qed.

End Facts.

(** C8, counterexample.  The queue holds ["a"] when the iterator is
    requested; ["b"] is enqueued after the first [next()]; the iterator
    produces ["a"; "b"]. *)
Lemma iterator_sees_later_enqueue :
  elements (enqueue createLinkedListQueue "a"%string) = ["a"%string] ∧
  perform (request_iterator (enqueue createLinkedListQueue "a"%string))
          [DoNext; DoEnqueue "b"%string; DoNext; DoNext]
  = mkClient (enqueue (enqueue createLinkedListQueue "a"%string) "b"%string)
             Completed ["a"%string; "b"%string] [] ∧
  cl_yielded
    (perform (request_iterator (enqueue createLinkedListQueue "a"%string))
             [DoNext; DoEnqueue "b"%string; DoNext; DoNext])
  ≠ elements (enqueue createLinkedListQueue "a"%string).
Proof. split; [reflexivity|]. split; [reflexivity|]. discriminate. Qed.

Lemma iterator_walks_live_chain_witness :
  perform
    (request_iterator
       (enqueue (enqueue createLinkedListQueue "a"%string) "b"%string))
    [DoNext; DoNext; DoNext]
  = mkClient (enqueue (enqueue createLinkedListQueue "a"%string) "b"%string)
             Completed ["a"%string; "b"%string] [].
Proof.
  refine (proj1 (iterator_walks_live_chain
                   (enqueue (enqueue createLinkedListQueue "a"%string)
                            "b"%string) _)).
  exists [DoEnqueue "a"%string; DoEnqueue "b"%string].
  split; [repeat constructor|reflexivity].
Defined.

End QueueFacts.

(* ================================================================== *)
(** * The channel *)
(* ================================================================== *)

Module ChannelFacts.
Import UnboundedAsyncChannel.
Import QueueFacts.
Section Facts.
Context {T E : Type}.
Implicit Types (ch : Channel T E) (v : T) (err : option E)
         (ps rs : list PromiseRef) (h : list (option (MaybeClosedResult T E)))
         (r p : PromiseRef).

(** *** The promise store *)

Lemma resolve_pending h p res :
  h !! p = Some None → resolve p res h = <[p := Some res]> h.
Proof. intros Hp. unfold resolve. by rewrite Hp. Qed.

Lemma resolve_fulfilled h p res x :
  h !! p = Some (Some x) → resolve p res h = h.
Proof. intros Hp. unfold resolve. by rewrite Hp. Qed.

Lemma resolve_lookup_ne h p p' res : p ≠ p' → resolve p res h !! p' = h !! p'.
Proof.
  intros Hne. unfold resolve.
  destruct (h !! p) as [[x|]|]; [done| |done].
  by rewrite list_lookup_insert_ne.
Qed.

Lemma resolve_lookup_pending h p res :
  h !! p = Some None → resolve p res h !! p = Some (Some res).
Proof.
  intros Hp. rewrite (resolve_pending _ _ _ Hp).
  apply list_lookup_insert_eq. by eapply lookup_lt_Some.
Qed.

Lemma resolve_new h res :
  resolve (length h) res (h ++ [None]) = h ++ [Some res].
Proof.
  rewrite resolve_pending by (by apply list_lookup_middle).
  replace (length h) with (length h + 0)%nat at 1 by lia.
  by rewrite insert_app_r.
Qed.

Lemma notify_closed_resolve err r h :
  notify_closed err r h = resolve r (Closed err) h.
Proof. by destruct err. Qed.

Lemma closed_result_eq ch : closed_result ch = Closed (error ch).
Proof. unfold closed_result. by destruct (error ch). Qed.

(** Closing settles every waiting reader, and nothing else. *)
Lemma notify_all err rs : ∀ h,
  NoDup rs →
  Forall (λ r, h !! r = Some None) rs →
  Forall (λ r, foldl (λ h r, notify_closed err r h) h rs !! r
               = Some (Some (Closed err))) rs ∧
  (∀ p, p ∉ rs → foldl (λ h r, notify_closed err r h) h rs !! p = h !! p).
Proof.
  induction rs as [|r rs IH]; intros h Hnd Hpend; simpl.
  - split; [constructor|done].
  - apply NoDup_cons in Hnd as [Hnotin Hnd].
    apply Forall_cons in Hpend as [Hr Hpend].
    rewrite notify_closed_resolve.
    destruct (IH (resolve r (Closed err) h) Hnd) as [Hall Hother].
    { rewrite Forall_forall in Hpend |- *. intros r' Hin.
      rewrite resolve_lookup_ne; [by apply Hpend|]. by intros ->. }
    split.
    + constructor; [|done]. rewrite Hother by done.
      by apply resolve_lookup_pending.
    + intros p Hp. apply not_elem_of_cons in Hp as [Hne Hp].
      rewrite Hother by done. by apply resolve_lookup_ne.
Qed.

Lemma slot_value_received ch p v :
  slot_value ch p = Some v → received ch (Slot p) = Some (NotClosed v).
Proof.
  unfold slot_value, received.
  destruct (heap ch !! p) as [[[x|e]|]|]; intros; by simplify_eq.
Qed.

Lemma slot_value_heap ch ch' p : heap ch' = heap ch → slot_value ch' p = slot_value ch p.
Proof. unfold slot_value. by intros ->. Qed.

Lemma slot_value_allocated ch p : is_Some (slot_value ch p) → (p < length (heap ch))%nat.
Proof.
  unfold slot_value. intros [v Hv].
  destruct (heap ch !! p) eqn:Hp; [|done]. by eapply lookup_lt_Some.
Qed.

Lemma slot_value_app ch ch' p extra :
  heap ch' = heap ch ++ extra →
  is_Some (slot_value ch p) → slot_value ch' p = slot_value ch p.
Proof.
  intros Hh Hs. apply slot_value_allocated in Hs. unfold slot_value.
  by rewrite Hh, lookup_app_l.
Qed.

(** *** The invariant holds initially *)

Lemma inv_create : chan_inv (createUnboundedAsyncChannel (T:=T) (E:=E)) [] [].
Proof.
  split; simpl; try done; try apply represents_create; try constructor; done.
Qed.

(** *** [write] *)

Lemma write_closed ch v :
  closed ch = true → write ch v = (ch, Returns (Closed (error ch))).
Proof. intros Hc. unfold write. by rewrite Hc, closed_result_eq. Qed.

(** No reader is waiting: the value is buffered in a new slot. *)
Lemma write_buffers ch ps v :
  chan_inv ch ps [] → closed ch = false →
  ∃ ch', write ch v = (ch', Returns (NotClosed v)) ∧
         chan_inv ch' (ps ++ [length (heap ch)]) [] ∧
         heap ch' = heap ch ++ [Some (NotClosed v)] ∧
         closed ch' = false.
Proof.
  intros [Hp Hr Hone Hbuf Hnd Happ Hw] Hc. rewrite Hc in Hw. destruct Hw as [_ He].
  unfold write, ensure_resolver. rewrite Hc.
  rewrite (represents_size _ _ Hr). simpl.
  pose proof (represents_enqueue _ _ (length (heap ch)) Hr) as Hr1.
  destruct (represents_dequeue _ _ _ Hr1) as (rq & Hd & Hrq & Hn).
  rewrite Hd. eexists. split; [done|]. simpl. rewrite resolve_new.
  split; [|done]. split; simpl.
  - by apply represents_enqueue.
  - done.
  - by right.
  - apply Forall_app. split.
    + rewrite Forall_forall in Hbuf |- *. intros p Hin.
      unfold slot_value at 1. simpl.
      pose proof (slot_value_allocated _ _ (Hbuf p Hin)) as Hlt.
      rewrite lookup_app_l by done. by apply Hbuf.
    + constructor; [|constructor]. unfold slot_value. simpl.
      by rewrite list_lookup_middle.
  - constructor.
  - rewrite Hn, !enqueue_allocates. lia.
  - rewrite Hc. split; [constructor|done].
Qed.

(** A reader is waiting: the value goes to the one that has waited longest. *)
Lemma write_delivers ch ps r rs v :
  chan_inv ch ps (r :: rs) → closed ch = false →
  ∃ ch', write ch v = (ch', Returns (NotClosed v)) ∧
         chan_inv ch' [] rs ∧
         heap ch' = <[r := Some (NotClosed v)]> (heap ch) ∧
         heap ch !! r = Some None ∧
         closed ch' = false.
Proof.
  intros [Hp Hr Hone Hbuf Hnd Happ Hw] Hc. rewrite Hc in Hw.
  destruct Hw as [Hpend He]. destruct Hone as [->|?]; [|done].
  apply Forall_cons in Hpend as [Hrp Hpend].
  apply NoDup_cons in Hnd as [Hnotin Hnd].
  unfold write, ensure_resolver. rewrite Hc.
  rewrite (represents_size _ _ Hr). simpl.
  destruct (represents_dequeue _ _ _ Hr) as (rq & Hd & Hrq & Hn).
  rewrite Hd. eexists. split; [done|]. simpl.
  rewrite (resolve_pending _ _ _ Hrp).
  split; [|done]. split; simpl; try done.
  - by left.
  - by rewrite Hn.
  - rewrite Hc. split; [|done].
    rewrite Forall_forall in Hpend |- *. intros r' Hin.
    rewrite list_lookup_insert_ne; [by apply Hpend|]. by intros ->.
Qed.

(** *** [read] *)

(** Closed and drained. *)
Lemma read_drained ch rs :
  chan_inv ch [] rs → closed ch = true →
  read ch = (ch, Direct (Closed (error ch))).
Proof.
  intros [Hp _ _ _ _ _ _] Hc. unfold read.
  rewrite Hc, (represents_size _ _ Hp). simpl. by rewrite closed_result_eq.
Qed.

(** A slot is available: the reader claims the oldest one. *)
Lemma read_takes ch p ps rs :
  chan_inv ch (p :: ps) rs →
  ∃ ch', read ch = (ch', Slot p) ∧
         chan_inv ch' ps rs ∧
         heap ch' = heap ch ∧ closed ch' = closed ch ∧ error ch' = error ch ∧
         resolvers ch' = resolvers ch.
Proof.
  intros [Hp Hr Hone Hbuf Hnd Happ Hw]. unfold read, ensure_promise.
  rewrite (represents_size _ _ Hp). simpl. rewrite andb_false_r.
  destruct (represents_dequeue _ _ _ Hp) as (pq & Hd & Hpq & Hn).
  rewrite Hd. eexists. split; [done|]. simpl.
  split; [|done]. destruct Hone as [?| ->]; [done|].
  apply Forall_cons in Hbuf as [_ Hbuf].
  split; simpl; try done.
  - by right.
  - by rewrite Hn.
Qed.

(** Open and empty: the reader waits on a new slot. *)
Lemma read_waits ch rs :
  chan_inv ch [] rs → closed ch = false →
  ∃ ch', read ch = (ch', Slot (length (heap ch))) ∧
         chan_inv ch' [] (rs ++ [length (heap ch)]) ∧
         heap ch' = heap ch ++ [None] ∧
         closed ch' = false.
Proof.
  intros [Hp Hr Hone Hbuf Hnd Happ Hw] Hc. rewrite Hc in Hw.
  destruct Hw as [Hpend He].
  unfold read, ensure_promise. rewrite Hc.
  rewrite (represents_size _ _ Hp). simpl.
  pose proof (represents_enqueue _ _ (length (heap ch)) Hp) as Hp1.
  destruct (represents_dequeue _ _ _ Hp1) as (pq & Hd & Hpq & Hn).
  rewrite Hd. eexists. split; [done|]. simpl.
  split; [|done].
  assert (Hlt : Forall (λ r, (r < length (heap ch))%nat) rs).
  { eapply Forall_impl; [exact Hpend|]. intros r Hr'.
    exact (lookup_lt_Some _ _ _ Hr'). }
  split; simpl; try done.
  - by apply represents_enqueue.
  - by left.
  - apply NoDup_app. split; [done|]. split; [|apply NoDup_singleton].
    intros r Hin Hin'. apply list_elem_of_singleton in Hin'. subst r.
    rewrite Forall_forall in Hlt. apply Hlt in Hin. lia.
  - rewrite Hn, !enqueue_allocates. lia.
  - rewrite Hc. split; [|done]. apply Forall_app. split.
    + rewrite Forall_forall in Hpend |- *. intros r Hin.
      by apply lookup_app_l_Some, Hpend.
    + constructor; [|constructor]. by rewrite list_lookup_middle.
Qed.

(** *** [close] *)

Lemma close_closed ch err : closed ch = true → close ch err = (ch, Returns tt).
Proof. intros Hc. unfold close. by rewrite Hc. Qed.

Lemma close_open ch ps rs err :
  chan_inv ch ps rs → closed ch = false →
  ∃ ch', close ch err = (ch', Returns tt) ∧
         chan_inv ch' ps rs ∧
         closed ch' = true ∧ error ch' = err ∧
         promises ch' = promises ch ∧
         (∀ p v, slot_value ch p = Some v → slot_value ch' p = Some v).
Proof.
  intros [Hp Hr Hone Hbuf Hnd Happ Hw] Hc. rewrite Hc in Hw.
  destruct Hw as [Hpend He].
  unfold close. rewrite Hc.
  rewrite (for_of_represents _ _ _ _ Hr).
  destruct (notify_all err rs (heap ch) Hnd Hpend) as [Hall Hother].
  assert (Hkeep : ∀ p v, slot_value ch p = Some v →
            foldl (λ h r, notify_closed err r h) (heap ch) rs !! p = heap ch !! p).
  { intros p v Hv. apply Hother. intros Hin.
    rewrite Forall_forall in Hpend. apply Hpend in Hin.
    unfold slot_value in Hv. by rewrite Hin in Hv. }
  eexists. split; [done|]. simpl.
  split; [|split; [done|split; [done|split; [done|]]]].
  - split; simpl; try done.
    rewrite Forall_forall in Hbuf |- *. intros p Hin.
    destruct (Hbuf p Hin) as [v Hv]. exists v.
    unfold slot_value. simpl. by rewrite (Hkeep p v Hv).
  - intros p v Hv. unfold slot_value. simpl. by rewrite (Hkeep p v Hv).
Qed.

(** *** Every reachable channel satisfies the invariant *)

Lemma step_inv ch ps rs op :
  chan_inv ch ps rs → ∃ ps' rs', chan_inv (step ch op) ps' rs'.
Proof.
  intros Hinv. destruct op as [v| |err]; simpl.
  - destruct (closed ch) eqn:Hc.
    + rewrite write_closed by done. simpl. eauto.
    + destruct rs as [|r rs].
      * destruct (write_buffers _ _ v Hinv Hc) as (ch' & -> & Hinv' & _).
        simpl. eauto.
      * destruct (write_delivers _ _ _ _ v Hinv Hc) as (ch' & -> & Hinv' & _).
        simpl. eauto.
  - destruct ps as [|p ps].
    + destruct (closed ch) eqn:Hc.
      * rewrite (read_drained _ _ Hinv Hc). simpl. eauto.
      * destruct (read_waits _ _ Hinv Hc) as (ch' & -> & Hinv' & _).
        simpl. eauto.
    + destruct (read_takes _ _ _ _ Hinv) as (ch' & -> & Hinv' & _).
      simpl. eauto.
  - destruct (closed ch) eqn:Hc.
    + rewrite close_closed by done. simpl. eauto.
    + destruct (close_open _ _ _ err Hinv Hc) as (ch' & -> & Hinv' & _).
      simpl. eauto.
Qed.

Lemma run_inv ops : ∀ ch ps rs,
  chan_inv ch ps rs → ∃ ps' rs', chan_inv (run ch ops) ps' rs'.
Proof.
  unfold run. induction ops as [|op ops IH]; intros ch ps rs Hinv; simpl.
  - eauto.
  - destruct (step_inv _ _ _ op Hinv) as (ps' & rs' & Hinv'). by eapply IH.
Qed.

Lemma reachable_inv ch : reachable ch → ∃ ps rs, chan_inv ch ps rs.
Proof. intros (ops & ->). eapply run_inv, inv_create. Qed.

Lemma idle_inv ch ps rs : chan_inv ch ps rs → idle ch → ps = [] ∧ rs = [].
Proof.
  intros [Hp Hr _ _ _ _ _] [Hsp Hsr]. split.
  - eapply represents_size_0; [done|]. by apply Z.eqb_eq.
  - eapply represents_size_0; [done|]. by apply Z.eqb_eq.
Qed.

Lemma reachable_idle_inv ch : reachable ch → idle ch → chan_inv ch [] [].
Proof.
  intros Hre Hidle. destruct (reachable_inv _ Hre) as (ps & rs & Hinv).
  by destruct (idle_inv _ _ _ Hinv Hidle) as [-> ->].
Qed.

(** *** Sequences of writes and reads *)

(** [vs] written to an open channel on which no reader waits are buffered
    behind the values already there. *)
Lemma write_all_buffers vs : ∀ ch ps bs,
  chan_inv ch ps [] → closed ch = false →
  Forall2 (λ p b, slot_value ch p = Some b) ps bs →
  ∃ ps', chan_inv (write_all ch vs) ps' [] ∧
         closed (write_all ch vs) = false ∧
         Forall2 (λ p b, slot_value (write_all ch vs) p = Some b) ps' (bs ++ vs).
Proof.
  unfold write_all.
  induction vs as [|v vs IH]; intros ch ps bs Hinv Hc Hbs; simpl.
  - exists ps. by rewrite app_nil_r.
  - destruct (write_buffers _ _ v Hinv Hc) as (ch' & Hw & Hinv' & Hh & Hc').
    rewrite Hw. simpl.
    destruct (IH ch' (ps ++ [length (heap ch)]) (bs ++ [v]) Hinv' Hc')
      as (ps' & ? & ? & Hall).
    { apply Forall2_app.
      - eapply Forall2_impl; [exact Hbs|]. intros p b Hpb. simpl.
        rewrite (slot_value_app ch ch' p _ Hh); [done|]. by rewrite Hpb.
      - constructor; [|constructor]. unfold slot_value.
        by rewrite Hh, list_lookup_middle. }
    exists ps'. by rewrite <- app_assoc in Hall.
Qed.

(** Reads claim the available slots, oldest first. *)
Lemma read_n_takes ps : ∀ ch rs,
  chan_inv ch ps rs →
  ∃ ch', read_n (length ps) ch = (ch', Slot <$> ps) ∧
         chan_inv ch' [] rs ∧
         heap ch' = heap ch ∧ closed ch' = closed ch ∧ error ch' = error ch.
Proof.
  induction ps as [|p ps IH]; intros ch rs Hinv; simpl.
  - by exists ch.
  - destruct (read_takes _ _ _ _ Hinv) as (ch1 & -> & Hinv1 & Hh & Hc & He & _).
    destruct (IH ch1 rs Hinv1) as (ch2 & -> & Hinv2 & Hh2 & Hc2 & He2).
    exists ch2. split; [done|]. split; [done|]. repeat split; congruence.
Qed.

Lemma read_n_drained n : ∀ ch rs,
  chan_inv ch [] rs → closed ch = true →
  read_n n ch = (ch, replicate n (Direct (Closed (error ch)))).
Proof.
  induction n as [|n IH]; intros ch rs Hinv Hc; simpl; [done|].
  rewrite (read_drained _ _ Hinv Hc). by rewrite (IH _ _ Hinv Hc).
Qed.

Lemma read_n_add a b : ∀ ch,
  read_n (a + b) ch =
  (fst (read_n b (fst (read_n a ch))),
   snd (read_n a ch) ++ snd (read_n b (fst (read_n a ch)))).
Proof.
  induction a as [|a IH]; intros ch; simpl.
  - by destruct (read_n b ch).
  - destruct (read ch) as [ch1 r]. rewrite IH.
    by destruct (read_n a ch1) as [ch2 rs2].
Qed.

Lemma received_slots ch ps bs :
  Forall2 (λ p b, slot_value ch p = Some b) ps bs →
  received ch <$> (Slot <$> ps) = (λ v, Some (NotClosed v)) <$> bs.
Proof.
  induction 1 as [|p b ps bs Hpb _ IH]; [done|].
  by rewrite !fmap_cons, (slot_value_received _ _ _ Hpb), IH.
Qed.

Lemma slots_same_heap ch ch' ps bs :
  heap ch' = heap ch →
  Forall2 (λ p b, slot_value ch p = Some b) ps bs →
  Forall2 (λ p b, slot_value ch' p = Some b) ps bs.
Proof.
  intros Hh Hall. eapply Forall2_impl; [exact Hall|].
  intros p b Hpb. simpl. by rewrite (slot_value_heap _ _ _ Hh).
Qed.

(** In a reachable channel every unclaimed slot holds a value. *)
Lemma buffered_values_inv ch ps rs bs :
  chan_inv ch ps rs → buffered_values ch = Some bs →
  Forall2 (λ p b, slot_value ch p = Some b) ps bs.
Proof.
  intros [Hp _ _ _ _ _ _] Hbs. unfold buffered_values in Hbs.
  rewrite (elements_represents _ _ Hp) in Hbs. by apply mapM_Some_1.
Qed.

(** *** Iteration *)

Lemma for_await_buffered ps : ∀ bs ch rs fuel acc,
  chan_inv ch ps rs → closed ch = true →
  Forall2 (λ p b, slot_value ch p = Some b) ps bs →
  (length ps < fuel)%nat →
  ∃ ch', for_await fuel ch acc
         = (ch', acc ++ bs,
            match error ch with Some e => Fails e | None => EndsCleanly end).
Proof.
  induction ps as [|p ps IH]; intros bs ch rs fuel acc Hinv Hc Hbs Hfuel;
    (destruct fuel as [|fuel]; [simpl in Hfuel; lia|]); simpl.
  - apply Forall2_nil_inv_l in Hbs as ->. unfold generator_next.
    rewrite (read_drained _ _ Hinv Hc). simpl. rewrite app_nil_r.
    destruct (error ch); eauto.
  - apply Forall2_cons_inv_l in Hbs as (b & bs' & Hpb & Hbs & ->).
    destruct (read_takes _ _ _ _ Hinv) as (ch1 & Hrd & Hinv1 & Hh & Hc1 & He & _).
    unfold generator_next. rewrite Hrd.
    rewrite <- (slot_value_heap ch ch1 p Hh) in Hpb.
    rewrite (slot_value_received _ _ _ Hpb). simpl.
    destruct (IH bs' ch1 rs fuel (acc ++ [b]) Hinv1) as (ch2 & ->).
    + congruence.
    + by eapply slots_same_heap.
    + simpl in Hfuel. lia.
    + exists ch2. by rewrite He, <- app_assoc.
Qed.

(* ================================================================== *)
(** * Properties of the channel *)
(* ================================================================== *)

(** C1.  Values written to an open channel that holds nothing and on which
    nobody waits, with no call of [close], are returned by the following
    calls of [read()] as [{closed: false, value: vi}], in the order in
    which they were written. *)
Theorem writes_then_reads_fifo ch vs ch' rrs :
  reachable ch → closed ch = false → idle ch →
  read_n (length vs) (write_all ch vs) = (ch', rrs) →
  received ch' <$> rrs = (λ v, Some (NotClosed v)) <$> vs.
Proof.
  intros Hre Hc Hidle Hreads.
  pose proof (reachable_idle_inv _ Hre Hidle) as Hinv.
  destruct (write_all_buffers vs ch [] [] Hinv Hc) as (ps & Hinv1 & _ & Hall);
    [constructor|]. simpl in Hall.
  destruct (read_n_takes ps _ _ Hinv1) as (ch2 & Hrd & _ & Hh & _).
  rewrite (Forall2_length _ _ _ Hall) in Hrd.
  rewrite Hrd in Hreads. injection Hreads as <- <-.
  apply received_slots. by eapply slots_same_heap.
Qed.

(** C2.  When an open channel that holds the buffered values [bs] is closed
    by [close(e)], the next [length bs] calls of [read()] return those
    values in the order in which they were written, and every call after
    them returns [{closed: true, error: e}]. *)
Theorem close_drains_then_reports ch bs e m ch' rrs :
  reachable ch → closed ch = false → buffered_values ch = Some bs →
  read_n (length bs + m) (fst (close ch e)) = (ch', rrs) →
  received ch' <$> rrs
  = ((λ v, Some (NotClosed v)) <$> bs) ++ replicate m (Some (Closed e)).
Proof.
  intros Hre Hc Hbs Hreads.
  destruct (reachable_inv _ Hre) as (ps & rs & Hinv).
  pose proof (buffered_values_inv _ _ _ _ Hinv Hbs) as Hall.
  destruct (close_open _ _ _ e Hinv Hc)
    as (ch1 & Hcl & Hinv1 & Hc1 & He1 & _ & Hkeep).
  rewrite Hcl in Hreads. simpl in Hreads.
  destruct (read_n_takes ps _ _ Hinv1) as (ch2 & Hrd & Hinv2 & Hh2 & Hc2 & He2).
  rewrite <- (Forall2_length _ _ _ Hall), read_n_add, Hrd in Hreads.
  simpl in Hreads.
  rewrite (read_n_drained m _ _ Hinv2) in Hreads by congruence.
  simpl in Hreads. injection Hreads as <- <-.
  rewrite fmap_app, fmap_replicate. simpl. f_equal; [|congruence].
  apply received_slots. eapply slots_same_heap; [done|].
  eapply Forall2_impl; [exact Hall|]. intros p b Hpb. by apply Hkeep.
Qed.

(** C3.  On an open channel that holds nothing and on which nobody waits,
    let A call [read()] and then B call [read()]: both are left waiting.
    One [write(v)] then gives [{closed: false, value: v}] to A and leaves B
    waiting: it removed from the resolver queue, and called, the resolver
    that was enqueued first. *)
Theorem write_serves_oldest_reader ch ch1 ch2 ch3 a b v res :
  reachable ch → closed ch = false → idle ch →
  read ch = (ch1, a) → read ch1 = (ch2, b) → write ch2 v = (ch3, res) →
  (received ch2 a = None ∧ received ch2 b = None) ∧
  (received ch3 a = Some (NotClosed v) ∧ received ch3 b = None) ∧
  ∃ pa pb, a = Slot pa ∧ b = Slot pb ∧
           Q.elements (resolvers ch2) = [pa; pb] ∧
           Q.elements (resolvers ch3) = [pb].
Proof.
  intros Hre Hc Hidle Ha Hb Hw.
  pose proof (reachable_idle_inv _ Hre Hidle) as Hinv.
  destruct (read_waits _ _ Hinv Hc) as (c1 & Ha' & Hinv1 & Hh1 & Hc1).
  rewrite Ha' in Ha. injection Ha as -> <-.
  destruct (read_waits _ _ Hinv1 Hc1) as (c2 & Hb' & Hinv2 & Hh2 & Hc2).
  rewrite Hb' in Hb. injection Hb as -> <-.
  destruct (write_delivers _ _ _ _ v Hinv2 Hc2)
    as (c3 & Hw' & Hinv3 & Hh3 & Hpa & Hc3).
  rewrite Hw' in Hw. injection Hw as -> <-.
  assert (Hpb : heap ch2 !! length (heap ch1) = Some None).
  { by rewrite Hh2, list_lookup_middle. }
  assert (Hne : length (heap ch) ≠ length (heap ch1)).
  { rewrite Hh1, length_app. simpl. lia. }
  unfold received. rewrite Hh3, Hpa, Hpb.
  rewrite list_lookup_insert_eq by (by eapply lookup_lt_Some).
  rewrite list_lookup_insert_ne, Hpb by done.
  repeat split; try done.
  exists (length (heap ch)), (length (heap ch1)). repeat split; try done.
  - apply elements_represents. by destruct Hinv2.
  - apply elements_represents. by destruct Hinv3.
Qed.

(** C4.  [close] is idempotent and the first close wins: after [close()]
    on an open channel the state is [{closed: true, error: undefined}];
    a following [close(e2)] changes nothing at all, and no later call of
    [write], [read] or [close] changes [closed] or [error]. *)
Theorem close_first_error_permanent ch e2 ops :
  closed ch = false →
  state (fst (close ch None)) = mkState true None ∧
  fst (close (fst (close ch None)) (Some e2)) = fst (close ch None) ∧
  state (run (fst (close (fst (close ch None)) (Some e2))) ops)
  = mkState true None.
Proof.
  intros Hc.
  assert (Hst : state (fst (close ch None)) = mkState true None).
  { unfold close. rewrite Hc. by destruct (Q.for_of _ _ _ _ _). }
  assert (Hc1 : closed (fst (close ch None)) = true).
  { by injection Hst. }
  split; [done|]. rewrite (close_closed _ (Some e2) Hc1). simpl.
  split; [done|].
  revert Hst Hc1. generalize (fst (close ch None)). clear ch Hc.
  unfold run. induction ops as [|op ops IH]; intros ch Hst Hc; simpl; [done|].
  assert (Hstep : state (step ch op) = state ch).
  { destruct op as [v| |err]; simpl.
    - by rewrite write_closed.
    - unfold read, ensure_promise, addPromise.
      destruct (closed ch && (Q.size (promises ch) =? 0)); [done|].
      destruct (Q.size (promises ch) =? 0);
        by destruct (Q.dequeue _) as [? [?|]].
    - by rewrite close_closed. }
  apply IH.
  - by rewrite Hstep.
  - rewrite <- Hc. change (st_closed (state (step ch op)) = st_closed (state ch)).
    by rewrite Hstep.
Qed.

(** C5.  On a closed channel [write(v)] returns [{closed: true, error}] with
    the stored error and leaves the whole channel as it was: both queues,
    [closed] and [error]. *)
Theorem write_on_closed_changes_nothing ch v :
  closed ch = true →
  snd (write ch v) = Returns (Closed (error ch)) ∧
  fst (write ch v) = ch ∧
  promises (fst (write ch v)) = promises ch ∧
  resolvers (fst (write ch v)) = resolvers ch ∧
  state (fst (write ch v)) = state ch.
Proof. intros Hc. by rewrite write_closed. Qed.

(** C7 (as the code has it).  The two queues are extended together: the
    same number of entries has been appended to each, and [addPromise]
    raises both sizes by one.  They are drained separately, so that their
    sizes are equal only when both are empty. *)
Theorem queues_extended_in_lockstep ch :
  reachable ch →
  length (Q.nodes (promises ch)) = length (Q.nodes (resolvers ch)) ∧
  (Q.size (promises (addPromise ch)) = Q.size (promises ch) + 1 ∧
   Q.size (resolvers (addPromise ch)) = Q.size (resolvers ch) + 1) ∧
  (Q.size (promises ch) = Q.size (resolvers ch) → idle ch).
Proof.
  intros Hre. destruct (reachable_inv _ Hre) as (ps & rs & Hinv).
  destruct Hinv as [Hp Hr Hone _ _ Happ _].
  split; [done|]. split.
  - unfold addPromise. simpl. by rewrite !enqueue_size.
  - apply represents_size in Hp, Hr. unfold idle. rewrite Hp, Hr.
    destruct Hone as [-> | ->]; simpl; lia.
Qed.

(** C9.  In every state that [write], [read] and [close] can reach from a
    new channel, one of the two queues is empty. *)
Theorem one_queue_always_empty ch :
  reachable ch → Z.min (Q.size (promises ch)) (Q.size (resolvers ch)) = 0.
Proof.
  intros Hre. destruct (reachable_inv _ Hre) as (ps & rs & Hinv).
  destruct Hinv as [Hp Hr Hone _ _ _ _].
  apply represents_size in Hp, Hr. rewrite Hp, Hr.
  destruct Hone as [-> | ->]; simpl; lia.
Qed.

(** C10.  The non-null assertions hold: in [write], after
    [if (resolvers.size === 0) addPromise()], [resolvers.dequeue()] answers
    a resolver, and in [read], after [if (promises.size === 0)
    addPromise()], [promises.dequeue()] answers a promise; so [write] never
    calls [null] and [read] never resolves with [null]. *)
Theorem dequeue_after_guard_never_null ch :
  reachable ch →
  (∃ rq res, Q.dequeue (resolvers (ensure_resolver ch)) = (rq, Some res)) ∧
  (∃ pq p, Q.dequeue (promises (ensure_promise ch)) = (pq, Some p)) ∧
  (∀ v, snd (write ch v) ≠ ThrowsTypeError) ∧
  snd (read ch) ≠ Null.
Proof.
  intros Hre. destruct (reachable_inv _ Hre) as (ps & rs & Hinv).
  assert (Hw : ∃ rq res,
             Q.dequeue (resolvers (ensure_resolver ch)) = (rq, Some res)).
  { destruct Hinv as [Hp Hr _ _ _ _ _]. unfold ensure_resolver.
    destruct (Q.size (resolvers ch) =? 0) eqn:Hz.
    - pose proof (represents_enqueue _ _ (length (heap ch)) Hr) as Hr1.
      rewrite (represents_size_0 _ _ Hr Hz) in Hr1.
      destruct (represents_dequeue _ _ _ Hr1) as (rq & Hd & _). simpl. eauto.
    - destruct (represents_size_pos _ _ Hr Hz) as (r & rs' & ->).
      destruct (represents_dequeue _ _ _ Hr) as (rq & Hd & _). eauto. }
  assert (Hr : ∃ pq p,
             Q.dequeue (promises (ensure_promise ch)) = (pq, Some p)).
  { destruct Hinv as [Hp Hr _ _ _ _ _]. unfold ensure_promise.
    destruct (Q.size (promises ch) =? 0) eqn:Hz.
    - pose proof (represents_enqueue _ _ (length (heap ch)) Hp) as Hp1.
      rewrite (represents_size_0 _ _ Hp Hz) in Hp1.
      destruct (represents_dequeue _ _ _ Hp1) as (pq & Hd & _). simpl. eauto.
    - destruct (represents_size_pos _ _ Hp Hz) as (p & ps' & ->).
      destruct (represents_dequeue _ _ _ Hp) as (pq & Hd & _). eauto. }
  split; [done|]. split; [done|]. split.
  - intros v. unfold write. destruct (closed ch); [done|].
    by destruct Hw as (rq & res & ->).
  - unfold read. destruct (closed ch && (Q.size (promises ch) =? 0)); [done|].
    by destruct Hr as (pq & p & ->).
Qed.

End Facts.

(** C6.  After 0, 1 and 2 have been written to an open channel that holds
    nothing and on which nobody waits, and the channel has been closed,
    [for await] produces exactly 0, 1, 2 and then ends cleanly if the
    channel was closed without an error, and fails with [e] if it was
    closed with the error [e]. *)
Theorem iteration_yields_012_then_ends {E : Type} (ch : Channel Z E)
    (err : option E) (fuel : nat) :
  reachable ch → closed ch = false → idle ch → (4 ≤ fuel)%nat →
  ∃ ch' : Channel Z E,
    for_await fuel (run ch [Write 0; Write 1; Write 2; Close err]) []
    = (ch', [0; 1; 2],
            match err with Some e => Fails e | None => EndsCleanly end).
Proof.
  intros Hre Hc Hidle Hfuel.
  pose proof (reachable_idle_inv _ Hre Hidle) as Hinv.
  change (run ch [Write 0; Write 1; Write 2; Close err])
    with (fst (close (write_all ch [0; 1; 2]) err)).
  destruct (write_all_buffers [0; 1; 2] ch [] [] Hinv Hc)
    as (ps & Hinv1 & Hc1 & Hall); [constructor|]. simpl in Hall.
  destruct (close_open _ _ _ err Hinv1 Hc1)
    as (ch1 & -> & Hinv2 & Hc2 & He2 & _ & Hkeep). simpl.
  destruct (for_await_buffered ps [0; 1; 2] ch1 [] fuel [] Hinv2 Hc2)
    as (ch' & ->).
  - eapply Forall2_impl; [exact Hall|]. intros p b Hpb. by apply Hkeep.
  - apply Forall2_length in Hall. simpl in Hall. lia.
  - exists ch'. by rewrite He2.
Qed.

(** *** The theorems at concrete channels *)

Lemma writes_then_reads_fifo_witness :
  received
    (fst (read_n 3 (write_all (createUnboundedAsyncChannel (E:=string))
                              [10; 20; 30])))
  <$> snd (read_n 3 (write_all (createUnboundedAsyncChannel (E:=string))
                               [10; 20; 30]))
  = [Some (NotClosed 10); Some (NotClosed 20); Some (NotClosed 30)].
Proof.
  apply (writes_then_reads_fifo
           (createUnboundedAsyncChannel (E:=string)) [10; 20; 30]).
  - by exists [].
  - reflexivity.
  - split; reflexivity.
  - reflexivity.
Defined.

Lemma close_drains_then_reports_witness :
  received
    (fst (read_n 4 (fst (close (write_all createUnboundedAsyncChannel [1; 2])
                               (Some "boom"%string)))))
  <$> snd (read_n 4 (fst (close (write_all createUnboundedAsyncChannel [1; 2])
                                (Some "boom"%string))))
  = [Some (NotClosed 1); Some (NotClosed 2);
     Some (Closed (Some "boom"%string)); Some (Closed (Some "boom"%string))].
Proof.
  apply (close_drains_then_reports
           (write_all createUnboundedAsyncChannel [1; 2]) [1; 2]
           (Some "boom"%string) 2).
  - by exists [Write 1; Write 2].
  - reflexivity.
  - reflexivity.
  - reflexivity.
Defined.

Lemma write_serves_oldest_reader_witness :
  received
    (fst (write (run (createUnboundedAsyncChannel (E:=string)) [Read; Read]) 7))
    (Slot 0%nat)
  = Some (NotClosed 7) ∧
  received
    (fst (write (run (createUnboundedAsyncChannel (E:=string)) [Read; Read]) 7))
    (Slot 1%nat)
  = None.
Proof.
  refine (proj1 (proj2
    (write_serves_oldest_reader
       (createUnboundedAsyncChannel (E:=string))
       (run createUnboundedAsyncChannel [Read])
       (run createUnboundedAsyncChannel [Read; Read])
       (fst (write (run createUnboundedAsyncChannel [Read; Read]) 7))
       (Slot 0%nat) (Slot 1%nat) 7 (Returns (NotClosed 7))
       _ _ _ _ _ _))).
  - by exists [].
  - reflexivity.
  - split; reflexivity.
  - reflexivity.
  - reflexivity.
  - reflexivity.
Defined.

Lemma close_first_error_permanent_witness :
  state
    (run (fst (close (fst (close (createUnboundedAsyncChannel (T:=Z)) None))
                     (Some "late"%string)))
         [Close (Some "again"%string); Read; Write 5; Close None])
  = mkState true None.
Proof.
  refine (proj2 (proj2
    (close_first_error_permanent
       (createUnboundedAsyncChannel (T:=Z)) "late"%string
       [Close (Some "again"%string); Read; Write 5; Close None] _))).
  reflexivity.
Defined.

Lemma write_on_closed_changes_nothing_witness :
  fst (write (fst (close (write_all createUnboundedAsyncChannel [1])
                         (Some "boom"%string))) 7)
  = fst (close (write_all createUnboundedAsyncChannel [1]) (Some "boom"%string)).
Proof.
  refine (proj1 (proj2
    (write_on_closed_changes_nothing
       (fst (close (write_all createUnboundedAsyncChannel [1])
                   (Some "boom"%string))) 7 _))).
  reflexivity.
Defined.

Lemma iteration_yields_012_then_ends_witness :
  ∃ ch' : Channel Z string,
    for_await 4 (run createUnboundedAsyncChannel
                     [Write 0; Write 1; Write 2; Close (Some "boom"%string)]) []
    = (ch', [0; 1; 2], Fails "boom"%string).
Proof.
  apply (iteration_yields_012_then_ends
           createUnboundedAsyncChannel (Some "boom"%string) 4).
  - by exists [].
  - reflexivity.
  - split; reflexivity.
  - lia.
Defined.

(** C7, counterexample.  After one [write] on a new channel the slot queue
    holds one entry and the resolver queue none. *)
Lemma queue_sizes_differ_after_write :
  reachable (run (createUnboundedAsyncChannel (E:=string)) [Write 1]) ∧
  Q.size (promises (run (createUnboundedAsyncChannel (E:=string)) [Write 1])) = 1 ∧
  Q.size (resolvers (run (createUnboundedAsyncChannel (E:=string)) [Write 1])) = 0 ∧
  Q.size (promises (run (createUnboundedAsyncChannel (E:=string)) [Write 1]))
  ≠ Q.size (resolvers (run (createUnboundedAsyncChannel (E:=string)) [Write 1])).
Proof.
  split; [by exists [Write 1]|]. split; [reflexivity|].
  split; [reflexivity|]. discriminate.
Qed.

Lemma queues_extended_in_lockstep_witness :
  length (Q.nodes (promises
            (run (createUnboundedAsyncChannel (E:=string)) [Write 1; Read; Read])))
  = length (Q.nodes (resolvers
              (run (createUnboundedAsyncChannel (E:=string)) [Write 1; Read; Read]))).
Proof.
  refine (proj1
    (queues_extended_in_lockstep
       (run (createUnboundedAsyncChannel (E:=string)) [Write 1; Read; Read]) _)).
  by exists [Write 1; Read; Read].
Defined.

Lemma one_queue_always_empty_witness :
  Z.min
    (Q.size (promises
       (run (createUnboundedAsyncChannel (E:=string)) [Write 1; Write 2; Read])))
    (Q.size (resolvers
       (run (createUnboundedAsyncChannel (E:=string)) [Write 1; Write 2; Read])))
  = 0.
Proof.
  apply one_queue_always_empty. by exists [Write 1; Write 2; Read].
Defined.

Lemma dequeue_after_guard_never_null_witness :
  snd (read (run (createUnboundedAsyncChannel (T:=Z) (E:=string))
                 [Read; Write 1; Write 2]))
  ≠ Null.
Proof.
  refine (proj2 (proj2 (proj2
    (dequeue_after_guard_never_null
       (run (createUnboundedAsyncChannel (T:=Z) (E:=string))
            [Read; Write 1; Write 2]) _)))).
  by exists [Read; Write 1; Write 2].
Defined.

End ChannelFacts.


(* ================================================================== *)
(** * More about the linked-list queue *)
(* ================================================================== *)

Module QueueMore.
Import LinkedListQueue.
Import QueueFacts.
Section More.
Context {T : Type}.
Implicit Types (q : Queue T) (v : T) (vs ws : list T)
         (cells : list (ref * T)) (store : list (Node T)).

Lemma enqueue_all_inv ws : ∀ q cells,
  queue_inv q cells →
  ∃ new, queue_inv (enqueue_all q ws) (cells ++ new) ∧ new.*2 = ws.
Proof.
  unfold enqueue_all. induction ws as [|w ws IH]; intros q cells Hinv; simpl.
  - exists []. by rewrite app_nil_r.
  - destruct (IH _ _ (enqueue_inv q cells w Hinv)) as (new & Hinv' & Hnew).
    exists ((length (nodes q), w) :: new). split.
    + by rewrite <- app_assoc in Hinv'.
    + by rewrite fmap_cons, Hnew.
Qed.

Lemma represents_enqueue_all q vs ws :
  represents q vs → represents (enqueue_all q ws) (vs ++ ws).
Proof.
  intros (cells & Hinv & <-).
  destruct (enqueue_all_inv ws q cells Hinv) as (new & Hinv' & <-).
  exists (cells ++ new). split; [done|]. by rewrite fmap_app.
Qed.

(** X1.  [enqueue] appends: after enqueuing [ws] the queue hands out what
    it held before and then [ws], in the order of the calls. *)
Theorem enqueue_all_fifo q ws :
  queue_reachable q → elements (enqueue_all q ws) = elements q ++ ws.
Proof.
  intros Hre. destruct (queue_reachable_represents _ Hre) as (vs & Hr).
  rewrite (elements_represents _ _ Hr).
  apply elements_represents. by apply represents_enqueue_all.
Qed.

(** X2.  [size] is the number of elements the queue holds. *)
Theorem size_counts_elements q :
  queue_reachable q → size q = Z.of_nat (length (elements q)).
Proof.
  intros Hre. destruct (queue_reachable_represents _ Hre) as (vs & Hr).
  rewrite (elements_represents _ _ Hr). by apply represents_size.
Qed.



(** *** An iterator and the elements enqueued behind it *)

Lemma perform_app (c : Client T) s1 s2 :
  perform c (s1 ++ s2) = perform (perform c s1) s2.
Proof. unfold perform. apply foldl_app. Qed.

Lemma chain_split store pre : ∀ p l v post,
  chain store p (pre ++ (l, v) :: post) →
  ∃ nx, store !! l = Some (mkNode v nx) ∧ chain store nx post.
Proof.
  induction pre as [|[l0 x0] pre IH]; intros p l v post; simpl.
  - intros (_ & nx & Hl & Hpost). eauto.
  - intros (_ & nx & _ & Hrest). by eapply IH.
Qed.

(** The first calls of [next()]: the iterator is left at the last node it
    has produced. *)
Lemma perform_next_prefix q post pre : ∀ p it ys ds,
  iter_next q it = yield_at q p →
  chain (nodes q) p (pre ++ post) →
  perform (mkClient q it ys ds) (replicate (length pre) DoNext)
  = mkClient q (match last pre with Some c => AtYield (fst c) | None => it end)
             (ys ++ pre.*2) ds.
Proof.
  induction pre as [|[l x] pre IH]; intros p it ys ds Hnext Hch.
  - simpl. by rewrite app_nil_r.
  - simpl in Hch. destruct Hch as (-> & nx & Hl & Hrest).
    simpl length. rewrite replicate_S, perform_cons.
    rewrite (yield_at_cell _ _ _ _ Hl) in Hnext.
    rewrite (act_next _ _ _ _ _ _ Hnext).
    rewrite (IH nx (AtYield l) (ys ++ [x]) ds (iter_next_at _ _ _ _ Hl) Hrest).
    rewrite last_cons, fmap_cons, <- app_assoc. simpl.
    by destruct (last pre).
Qed.

Lemma perform_enqueues ws : ∀ q it ys ds,
  perform (mkClient q it ys ds) (DoEnqueue <$> ws)
  = mkClient (enqueue_all q ws) it ys ds.
Proof.
  induction ws as [|w ws IH]; intros q it ys ds; [done|].
  rewrite fmap_cons, perform_cons. simpl. by rewrite IH.
Qed.

Lemma perform_next_completed n : ∀ q ys ds,
  perform (mkClient q Completed ys ds) (replicate n DoNext)
  = mkClient q Completed ys ds.
Proof.
  induction n as [|n IH]; intros q ys ds; [done|].
  rewrite replicate_S, perform_cons. simpl. by rewrite IH.
Qed.

(** X5.  The iterator is live: what is enqueued while it has not yet
    reported [done] is produced too, behind the elements that were there;
    what is enqueued after it has reported [done] is never produced. *)
Theorem iterator_sees_enqueues_until_done q ws k n :
  queue_reachable q → (k ≤ length (elements q))%nat →
  cl_yielded
    (perform (request_iterator q)
       (replicate k DoNext ++ (DoEnqueue <$> ws) ++
        replicate (S (length (elements q) + length ws - k)) DoNext))
  = elements q ++ ws ∧
  cl_yielded
    (perform (request_iterator q)
       (replicate (S (length (elements q))) DoNext ++ (DoEnqueue <$> ws) ++
        replicate n DoNext))
  = elements q.
Proof.
  intros Hre Hk. destruct (queue_reachable_represents _ Hre) as (vs & Hr).
  rewrite (elements_represents _ _ Hr) in Hk |- *.
  destruct Hr as (cells & Hinv & <-). rewrite length_fmap in Hk |- *.
  split.
  - destruct (enqueue_all_inv ws q cells Hinv) as (new & Hinv' & Hnew).
    pose proof (inv_chain _ _ Hinv) as Hch.
    pose proof (inv_chain _ _ Hinv') as Hch'.
    rewrite <- (take_drop k cells) in Hch, Hch'.
    assert (Hlen : length (take k cells) = k) by (rewrite length_take; lia).
    rewrite !perform_app. unfold request_iterator.
    rewrite <- Hlen at 1.
    rewrite (perform_next_prefix q (drop k cells) (take k cells) (front q)
               NotStarted [] [] eq_refl Hch).
    rewrite perform_enqueues. simpl "++".
    assert (Hrest : ∃ p,
      iter_next (enqueue_all q ws)
        (match last (take k cells) with
         | Some c => AtYield (fst c) | None => NotStarted end)
      = yield_at (enqueue_all q ws) p ∧
      chain (nodes (enqueue_all q ws)) p (drop k cells ++ new)).
    { destruct (take k cells) as [|c pre] using rev_ind.
      - exists (front (enqueue_all q ws)). split; [done|].
        by rewrite app_nil_l in Hch'.
      - rewrite last_snoc. destruct c as [l x].
        rewrite <- !app_assoc in Hch'. simpl in Hch'.
        destruct (chain_split _ _ _ _ _ _ Hch') as (nx & Hl & Hpost).
        exists nx. split; [by eapply iter_next_at|done]. }
    destruct Hrest as (p & Hnext & Hpost).
    replace (length cells + length ws - k)%nat
      with (length (drop k cells ++ new)).
    2:{ rewrite length_app, length_drop, <- Hnew, length_fmap. lia. }
    rewrite (perform_next_chain _ _ _ _ _ _ Hnext Hpost). simpl.
    rewrite fmap_app, Hnew, app_assoc, <- fmap_app.
    by rewrite take_drop.
  - rewrite !perform_app. unfold request_iterator.
    rewrite (perform_next_chain q cells (front q) NotStarted [] [] eq_refl
               (inv_chain _ _ Hinv)).
    by rewrite perform_enqueues, perform_next_completed.
Qed.

End More.

Lemma enqueue_all_fifo_witness :
  elements (enqueue_all (enqueue createLinkedListQueue "a"%string)
                        ["b"%string; "c"%string])
  = ["a"%string; "b"%string; "c"%string].
Proof.
  apply (enqueue_all_fifo (enqueue createLinkedListQueue "a"%string)
                          ["b"%string; "c"%string]).
  exists [DoEnqueue "a"%string]. split; [repeat constructor|reflexivity].
Defined.

Lemma size_counts_elements_witness :
  size (cl_queue (perform (request_iterator createLinkedListQueue)
                    [DoEnqueue "a"%string; DoEnqueue "b"%string; DoDequeue]))
  = 1.
Proof.
  apply (size_counts_elements
           (cl_queue (perform (request_iterator createLinkedListQueue)
                        [DoEnqueue "a"%string; DoEnqueue "b"%string; DoDequeue]))).
  eexists. split; [|reflexivity]. repeat constructor.
Defined.



Lemma iterator_sees_enqueues_until_done_witness :
  cl_yielded
    (perform (request_iterator (enqueue_all createLinkedListQueue
                                  ["a"%string; "b"%string]))
       [DoNext; DoEnqueue "c"%string; DoNext; DoNext; DoNext])
  = ["a"%string; "b"%string; "c"%string].
Proof.
  refine (proj1
    (iterator_sees_enqueues_until_done
       (enqueue_all createLinkedListQueue ["a"%string; "b"%string])
       ["c"%string] 1 0 _ _)).
  - exists [DoEnqueue "a"%string; DoEnqueue "b"%string].
    split; [repeat constructor|reflexivity].
  - simpl. lia.
Defined.

End QueueMore.


(* ================================================================== *)
(** * More about the channel: histories *)
(* ================================================================== *)

Module ChannelMore.
Import UnboundedAsyncChannel.
Import QueueFacts.
Import ChannelFacts.
Section More.
Context {T E : Type}.
Implicit Types (ch : Channel T E) (v : T) (err : option E)
         (ps rs : list PromiseRef) (R : list (ReadResult T E))
         (h : History T E) (rr : ReadResult T E) (op : Op T E)
         (ops : list (Op T E)).

(** *** What has been received stays received *)

Lemma received_same_heap ch ch' rr :
  heap ch' = heap ch → received ch' rr = received ch rr.
Proof. unfold received. by intros ->. Qed.

Lemma received_stable ch ch' rr x :
  (∀ p y, heap ch !! p = Some (Some y) → heap ch' !! p = Some (Some y)) →
  received ch rr = Some x → received ch' rr = Some x.
Proof.
  intros Hkeep. destruct rr as [r|p|]; simpl; [done| |done].
  destruct (heap ch !! p) as [[y|]|] eqn:Hp; try done.
  intros [= ->]. by rewrite (Hkeep _ _ Hp).
Qed.

Lemma received_stable_app ch ch' rr x extra :
  heap ch' = heap ch ++ extra →
  received ch rr = Some x → received ch' rr = Some x.
Proof.
  intros Hh. apply received_stable. intros p y Hp.
  rewrite Hh. by apply lookup_app_l_Some.
Qed.

Lemma received_stable_insert ch ch' rr x r res :
  heap ch' = <[r := res]> (heap ch) → heap ch !! r = Some None →
  received ch rr = Some x → received ch' rr = Some x.
Proof.
  intros Hh Hr. apply received_stable. intros p y Hp.
  rewrite Hh, list_lookup_insert_ne; [done|]. intros ->. congruence.
Qed.

Lemma received_value_stable ch ch' rr v :
  (∀ p w, slot_value ch p = Some w → slot_value ch' p = Some w) →
  received ch rr = Some (NotClosed v) → received ch' rr = Some (NotClosed v).
Proof.
  intros Hkeep. destruct rr as [r|p|]; simpl; [done| |done].
  intros Hp. apply (slot_value_received ch' p v), Hkeep.
  unfold slot_value. destruct (heap ch !! p) as [[y|]|]; by simplify_eq.
Qed.

Lemma drop_nil_length {A} (l : list A) n : drop n l = [] → (length l ≤ n)%nat.
Proof. intros Hd. pose proof (length_drop l n) as Hl. rewrite Hd in Hl. simpl in Hl. lia. Qed.

Lemma drop_cons_length {A} (l k : list A) x n :
  drop n l = x :: k → (n < length l)%nat ∧ l !! n = Some x ∧ drop (S n) l = k.
Proof.
  intros Hd. pose proof (length_drop l n) as Hl. rewrite Hd in Hl. simpl in Hl.
  assert (Hx : l !! n = Some x).
  { pose proof (lookup_drop l n 0) as Hlk. rewrite Hd in Hlk. simpl in Hlk.
    by rewrite Nat.add_0_r in Hlk. }
  split; [lia|]. split; [done|].
  rewrite (drop_S _ _ _ Hx) in Hd. by injection Hd.
Qed.

(** *** Every operation keeps the history invariant *)

Lemma hist_create :
  hist_inv (createUnboundedAsyncChannel (T:=T) (E:=E)) [] (mkHistory [] None)
           [] [].
Proof.
  split; simpl; try done. apply inv_create.
Qed.

Lemma hist_write ch R h ps rs v :
  hist_inv ch R h ps rs →
  ∃ ps' rs', hist_inv (fst (write ch v)) R (record_op h (Write v)) ps' rs'.
Proof.
  intros [Hinv Hopen Hclosed Hbuf Hserved Hnote].
  unfold record_op. destruct (closing h) as [e0|] eqn:Hcl.
  - destruct (Hclosed e0 eq_refl) as [Hc He].
    rewrite (write_closed _ v Hc). simpl. exists ps, rs.
    split; rewrite ?Hcl; done.
  - destruct (Hopen eq_refl) as [Hc Hdrop]. destruct rs as [|r rs].
    + destruct (write_buffers _ _ v Hinv Hc) as (ch' & Hw & Hinv' & Hh & Hc').
      rewrite Hw. simpl. apply drop_nil_length in Hdrop.
      exists (ps ++ [length (heap ch)]), []. split; simpl; try done.
      * intros _. split; [done|]. apply drop_ge.
        rewrite length_app. simpl. lia.
      * rewrite drop_app_le by done. apply Forall2_app.
        -- eapply Forall2_impl; [exact Hbuf|]. intros p b Hpb. simpl.
           rewrite (slot_value_app ch ch' p _ Hh); [done|]. by rewrite Hpb.
        -- constructor; [|constructor]. unfold slot_value.
           by rewrite Hh, list_lookup_middle.
      * intros i rr w Hi Hw'.
        assert (i < length (accepted h))%nat.
        { apply lookup_lt_Some in Hi. lia. }
        rewrite lookup_app_l in Hw' by done.
        eapply received_stable_app; [done|]. by eapply Hserved.
    + destruct (write_delivers _ _ _ _ v Hinv Hc)
        as (ch' & Hw & Hinv' & Hh & Hr & Hc').
      rewrite Hw. simpl.
      destruct (drop_cons_length _ _ _ _ Hdrop) as (Hlt & HRr & Hdrop').
      assert (ps = []) as ->.
      { destruct (ci_one_empty _ _ _ Hinv); [done|discriminate]. }
      exists [], rs. split; simpl; try done.
      * intros _. split; [done|]. rewrite length_app. simpl.
        by rewrite Nat.add_1_r.
      * rewrite drop_ge; [constructor|]. rewrite length_app. simpl. lia.
      * intros i rr w Hi Hw'. apply lookup_snoc_Some in Hw' as [[Hlt' Hw']|[-> ->]].
        -- eapply received_stable_insert; [done|done|]. by eapply Hserved.
        -- rewrite HRr in Hi. injection Hi as <-. simpl. rewrite Hh.
           rewrite list_lookup_insert_eq; [done|]. by eapply lookup_lt_Some.
Qed.

Lemma hist_read ch R h ps rs :
  hist_inv ch R h ps rs →
  ∃ ps' rs', hist_inv (fst (read ch)) (R ++ [snd (read ch)]) h ps' rs'.
Proof.
  intros [Hinv Hopen Hclosed Hbuf Hserved Hnote].
  destruct ps as [|p ps].
  - apply Forall2_nil_inv_l in Hbuf. pose proof (drop_nil_length _ _ Hbuf) as Hle.
    assert (Hbuf' : drop (length (R ++ [snd (read ch)])) (accepted h) = []).
    { apply drop_ge. rewrite length_app. simpl. lia. }
    assert (Hold : ∀ i rr w, (R ++ [snd (read ch)]) !! i = Some rr →
                             accepted h !! i = Some w → R !! i = Some rr).
    { intros i rr w Hi Hw. apply lookup_lt_Some in Hw.
      by rewrite lookup_app_l in Hi by lia. }
    destruct (closing h) as [e0|] eqn:Hcl.
    + destruct (Hclosed e0 eq_refl) as [Hc He].
      rewrite (read_drained _ _ Hinv Hc). simpl. exists [], rs.
      rewrite (read_drained _ _ Hinv Hc) in Hbuf', Hold. simpl in Hbuf', Hold.
      split; rewrite ?Hcl; try done.
      * rewrite Hbuf'. constructor.
      * intros i rr w Hi Hw. eapply Hserved; [|done]. by eapply Hold.
      * intros e i rr [= <-] Hi Hw.
        apply lookup_snoc_Some in Hi as [[_ Hi]|[_ <-]].
        -- by eapply Hnote.
        -- simpl. by rewrite He.
    + destruct (Hopen eq_refl) as [Hc Hdrop].
      destruct (read_waits _ _ Hinv Hc) as (ch' & Hrd & Hinv' & Hh & Hc').
      rewrite Hrd in Hbuf', Hold |- *. simpl in Hbuf', Hold |- *.
      exists [], (rs ++ [length (heap ch)]). split; rewrite ?Hcl; try done.
      * intros _. split; [done|].
        by rewrite drop_app_le, Hdrop, fmap_app by done.
      * rewrite Hbuf'. constructor.
      * intros i rr w Hi Hw. eapply received_stable_app; [done|].
        eapply Hserved; [|done]. by eapply Hold.
  - destruct (read_takes _ _ _ _ Hinv) as (ch' & Hrd & Hinv' & Hh & Hc & He & _).
    rewrite Hrd. simpl.
    destruct (drop (length R) (accepted h)) as [|w0 rest] eqn:Hd;
      [by apply Forall2_cons_nil_inv in Hbuf|].
    apply Forall2_cons in Hbuf as [Hp Hbuf].
    destruct (drop_cons_length _ _ _ _ Hd) as (Hlt & Hw0 & Hd').
    assert (rs = []) as ->.
    { destruct (ci_one_empty _ _ _ Hinv); [discriminate|done]. }
    exists ps, []. split; try done.
    + intros Hcl. destruct (Hopen Hcl) as [Hc0 _]. split; [congruence|].
      apply drop_ge. rewrite length_app. simpl. lia.
    + intros e Hcl. destruct (Hclosed e Hcl). split; congruence.
    + rewrite length_app. simpl. rewrite Nat.add_1_r, Hd'.
      by eapply slots_same_heap.
    + intros i rr w Hi Hw. rewrite (received_same_heap _ _ _ Hh).
      apply lookup_snoc_Some in Hi as [[_ Hi]|[-> <-]].
      * by eapply Hserved.
      * rewrite Hw0 in Hw. injection Hw as <-. by apply slot_value_received.
    + intros e i rr Hcl Hi Hw. rewrite (received_same_heap _ _ _ Hh).
      apply lookup_snoc_Some in Hi as [[_ Hi]|[-> _]].
      * by eapply Hnote.
      * congruence.
Qed.

Lemma hist_close ch R h ps rs err :
  hist_inv ch R h ps rs →
  ∃ ps' rs', hist_inv (fst (close ch err)) R (record_op h (Close err)) ps' rs'.
Proof.
  intros [Hinv Hopen Hclosed Hbuf Hserved Hnote].
  unfold record_op. destruct (closing h) as [e0|] eqn:Hcl.
  - destruct (Hclosed e0 eq_refl) as [Hc He].
    rewrite (close_closed _ err Hc). simpl. exists ps, rs.
    split; rewrite ?Hcl; done.
  - destruct (Hopen eq_refl) as [Hc Hdrop].
    destruct (close_open _ _ _ err Hinv Hc)
      as (ch' & Hclose & Hinv' & Hc' & He' & _ & Hkeep).
    rewrite Hclose. simpl. exists ps, rs. split; simpl; try done.
    + intros e [= <-]. done.
    + eapply Forall2_impl; [exact Hbuf|]. intros p b Hpb. by apply Hkeep.
    + intros i rr w Hi Hw. eapply received_value_stable; [done|].
      by eapply Hserved.
    + intros e i rr [= <-] Hi Hw. apply lookup_ge_None in Hw.
      assert (Hin : (Slot <$> rs) !! (i - length (accepted h))%nat = Some rr).
      { rewrite <- Hdrop, lookup_drop. rewrite <- Hi. f_equal. lia. }
      rewrite list_lookup_fmap in Hin.
      destruct (rs !! (i - length (accepted h))%nat) as [r|] eqn:Hr; [|done].
      simpl in Hin. injection Hin as <-.
      pose proof (ci_waiting _ _ _ Hinv') as Hwait. rewrite Hc' in Hwait.
      pose proof (Forall_lookup_1 _ _ _ _ Hwait Hr) as Hset. simpl in Hset.
      simpl. by rewrite Hset, He'.
Qed.

Lemma hist_observe ch R h ps rs op :
  hist_inv ch R h ps rs →
  ∃ ps' rs', hist_inv (fst (observe (ch, R) op)) (snd (observe (ch, R) op))
                      (record_op h op) ps' rs'.
Proof.
  intros Hinv. destruct op as [v| |err].
  - exact (hist_write _ _ _ _ _ v Hinv).
  - replace (record_op h Read) with h
      by (unfold record_op; by destruct (closing h)).
    pose proof (hist_read _ _ _ _ _ Hinv) as Hr. simpl.
    by destruct (read ch) as [ch' r].
  - exact (hist_close _ _ _ _ _ err Hinv).
Qed.

Lemma hist_run ops : ∀ ch R h ps rs,
  hist_inv ch R h ps rs →
  ∃ ps' rs',
    hist_inv (fst (foldl observe (ch, R) ops)) (snd (foldl observe (ch, R) ops))
             (foldl record_op h ops) ps' rs'.
Proof.
  induction ops as [|op ops IH]; intros ch R h ps rs Hinv; simpl.
  - eauto.
  - destruct (hist_observe _ _ _ _ _ op Hinv) as (ps' & rs' & Hinv').
    destruct (observe (ch, R) op) as [ch' R']. by eapply IH.
Qed.

Lemma hist_new ops :
  ∃ ps rs,
    hist_inv (fst (run_observe (createUnboundedAsyncChannel (T:=T) (E:=E)) ops))
             (snd (run_observe createUnboundedAsyncChannel ops))
             (history ops) ps rs.
Proof. exact (hist_run ops _ _ _ _ _ hist_create). Qed.

Lemma run_observe_run ops : ∀ ch R,
  fst (foldl observe (ch, R) ops) = run ch ops.
Proof.
  unfold run. induction ops as [|op ops IH]; intros ch R; simpl; [done|].
  destruct op as [v| |err]; simpl; try apply IH.
  destruct (read ch) as [ch' r]. apply IH.
Qed.

(** *** What a history gives its readers *)

(** X6.  On a new channel, after any sequence of [write], [read] and
    [close] calls, the [i]-th call of [read()] has received the [i]-th
    value written while the channel was open; if there is no such value it
    has received the closing notice [{closed: true, error}] of the first
    [close], and it is still pending if the channel has not been closed. *)
Theorem reads_receive_by_position ops i rr :
  snd (run_observe (createUnboundedAsyncChannel (T:=T) (E:=E)) ops) !! i
  = Some rr →
  received (fst (run_observe createUnboundedAsyncChannel ops)) rr
  = expected (history ops) i.
Proof.
  intros Hi. destruct (hist_new ops) as (ps & rs & Hinv).
  destruct Hinv as [Hinv Hopen Hclosed Hbuf Hserved Hnote].
  unfold expected. destruct (accepted (history ops) !! i) as [w|] eqn:Hw.
  - by eapply Hserved.
  - destruct (closing (history ops)) as [e|] eqn:Hcl.
    + by eapply Hnote.
    + destruct (Hopen eq_refl) as [Hc Hdrop]. apply lookup_ge_None in Hw.
      assert (Hin : (Slot <$> rs) !! (i - length (accepted (history ops)))%nat
                    = Some rr).
      { rewrite <- Hdrop, lookup_drop. rewrite <- Hi. f_equal. lia. }
      rewrite list_lookup_fmap in Hin.
      destruct (rs !! (i - length (accepted (history ops)))%nat) as [r|] eqn:Hr;
        [|done].
      simpl in Hin. injection Hin as <-.
      pose proof (ci_waiting _ _ _ Hinv) as Hwait. rewrite Hc in Hwait.
      destruct Hwait as [Hpend _].
      pose proof (Forall_lookup_1 _ _ _ _ Hpend Hr) as Hp. simpl in Hp.
      simpl. by rewrite Hp.
Qed.

(** X7.  The [state] of a channel is decided by the first call of [close]
    in its history: [{closed: false, error: undefined}] before it, and
    [{closed: true, error}] with the argument of that call ever after. *)
Theorem state_follows_first_close ops :
  state (run (createUnboundedAsyncChannel (T:=T) (E:=E)) ops)
  = match closing (history ops) with
    | None => mkState false None
    | Some err => mkState true err
    end.
Proof.
  destruct (hist_new ops) as (ps & rs & Hinv).
  unfold run_observe in Hinv. rewrite run_observe_run in Hinv.
  destruct Hinv as [Hinv Hopen Hclosed _ _ _]. unfold state.
  destruct (closing (history ops)) as [e|].
  - by destruct (Hclosed e eq_refl) as [-> ->].
  - destruct (Hopen eq_refl) as [Hc _].
    pose proof (ci_waiting _ _ _ Hinv) as Hwait. rewrite Hc in Hwait.
    destruct Hwait as [_ ->]. by rewrite Hc.
Qed.

(** X8.  [promises.size] is the number of accepted values that no call of
    [read()] has claimed yet; and while the channel is open
    [resolvers.size] is the number of calls of [read()] that no value has
    served yet. *)
Theorem queue_sizes_count_backlog ops :
  Q.size (promises (run (createUnboundedAsyncChannel (T:=T) (E:=E)) ops))
  = Z.of_nat (length (accepted (history ops))
              - length (snd (run_observe (createUnboundedAsyncChannel (T:=T) (E:=E)) ops))) ∧
  (closing (history ops) = None →
   Q.size (resolvers (run (createUnboundedAsyncChannel (T:=T) (E:=E)) ops))
   = Z.of_nat (length (snd (run_observe (createUnboundedAsyncChannel (T:=T) (E:=E)) ops))
               - length (accepted (history ops)))).
Proof.
  destruct (hist_new ops) as (ps & rs & Hinv).
  pose proof (run_observe_run ops (createUnboundedAsyncChannel (T:=T) (E:=E)) [])
    as Hrun.
  unfold run_observe in Hinv |- *. rewrite Hrun in Hinv.
  destruct Hinv as [Hinv Hopen _ Hbuf _ _].
  destruct Hinv as [Hp Hr _ _ _ _ _]. split.
  - rewrite (represents_size _ _ Hp). f_equal.
    by rewrite (Forall2_length _ _ _ Hbuf), length_drop.
  - intros Hcl. destruct (Hopen Hcl) as [_ Hdrop].
    rewrite (represents_size _ _ Hr). f_equal.
    apply (f_equal length) in Hdrop.
    rewrite length_drop, length_fmap in Hdrop. by rewrite Hdrop.
Qed.

(** *** [write] and [close] on reachable channels *)

(** X9.  [write] never throws: on an open channel it returns
    [{closed: false, value}] with the value it was given, on a closed one
    [{closed: true, error}]; it never opens or closes the channel. *)
Theorem write_acknowledges ch v :
  reachable ch →
  snd (write ch v)
  = Returns (if closed ch then Closed (error ch) else NotClosed v) ∧
  state (fst (write ch v)) = state ch.
Proof.
  intros Hre. destruct (reachable_inv _ Hre) as (ps & rs & Hinv).
  destruct (closed ch) eqn:Hc.
  - by rewrite write_closed.
  - pose proof (ci_waiting _ _ _ Hinv) as Hwait. rewrite Hc in Hwait.
    destruct Hwait as [_ He]. destruct rs as [|r rs].
    + destruct (write_buffers _ _ v Hinv Hc) as (ch' & -> & Hinv' & _ & Hc').
      simpl. split; [done|]. unfold state. rewrite Hc, Hc', He. f_equal.
      pose proof (ci_waiting _ _ _ Hinv') as Hwait. rewrite Hc' in Hwait.
      by destruct Hwait as [_ ->].
    + destruct (write_delivers _ _ _ _ v Hinv Hc)
        as (ch' & -> & Hinv' & _ & _ & Hc').
      simpl. split; [done|]. unfold state. rewrite Hc, Hc', He. f_equal.
      pose proof (ci_waiting _ _ _ Hinv') as Hwait. rewrite Hc' in Hwait.
      by destruct Hwait as [_ ->].
Qed.

Lemma reachable_buffered ch ps rs :
  chan_inv ch ps rs → is_Some (buffered_values ch).
Proof.
  intros [Hp _ _ Hbuf _ _ _]. unfold buffered_values.
  rewrite (elements_represents _ _ Hp). by apply mapM_is_Some_2.
Qed.

(** X10.  [close] on an open channel returns (its loop over the resolvers
    ends), gives [{closed: true, error}] to every reader that was waiting,
    keeps the resolvers in their queue, and keeps the buffered values. *)
Theorem close_notifies_waiting_readers ch err :
  reachable ch → closed ch = false →
  snd (close ch err) = Returns tt ∧
  Forall (λ r, received ch (Slot r) = None ∧
               received (fst (close ch err)) (Slot r) = Some (Closed err))
         (Q.elements (resolvers ch)) ∧
  Q.elements (resolvers (fst (close ch err))) = Q.elements (resolvers ch) ∧
  buffered_values (fst (close ch err)) = buffered_values ch.
Proof.
  intros Hre Hc. destruct (reachable_inv _ Hre) as (ps & rs & Hinv).
  destruct (close_open _ _ _ err Hinv Hc)
    as (ch' & Hcl & Hinv' & Hc' & He' & Hps & Hkeep).
  rewrite Hcl. simpl. split; [done|].
  rewrite (elements_represents _ _ (ci_resolvers _ _ _ Hinv)).
  rewrite (elements_represents _ _ (ci_resolvers _ _ _ Hinv')).
  split; [|split; [done|]].
  - pose proof (ci_waiting _ _ _ Hinv) as Hw. rewrite Hc in Hw.
    destruct Hw as [Hpend _].
    pose proof (ci_waiting _ _ _ Hinv') as Hw'. rewrite Hc', He' in Hw'.
    rewrite Forall_forall in Hpend, Hw' |- *. intros r Hin. simpl.
    by rewrite (Hpend r Hin), (Hw' r Hin).
  - destruct (reachable_buffered _ _ _ Hinv) as [bs Hbs]. rewrite Hbs.
    pose proof (buffered_values_inv _ _ _ _ Hinv Hbs) as Hall.
    unfold buffered_values.
    rewrite (elements_represents _ _ (ci_promises _ _ _ Hinv')).
    apply mapM_Some_2. eapply Forall2_impl; [exact Hall|].
    intros p b Hpb. by apply Hkeep.
Qed.

(** *** Iteration *)

Lemma for_await_closed_drains ps : ∀ bs ch rs fuel acc,
  chan_inv ch ps rs → closed ch = true →
  Forall2 (λ p b, slot_value ch p = Some b) ps bs →
  (length ps < fuel)%nat →
  ∃ ch', for_await fuel ch acc
         = (ch', acc ++ bs,
            match error ch with Some e => Fails e | None => EndsCleanly end) ∧
         Q.size (promises ch') = 0 ∧ state ch' = state ch.
Proof.
  induction ps as [|p ps IH]; intros bs ch rs fuel acc Hinv Hc Hbs Hfuel;
    (destruct fuel as [|fuel]; [simpl in Hfuel; lia|]); simpl.
  - apply Forall2_nil_inv_l in Hbs as ->. unfold generator_next.
    rewrite (read_drained _ _ Hinv Hc). simpl. rewrite app_nil_r.
    exists ch. split; [by destruct (error ch)|].
    split; [|done]. by rewrite (represents_size _ _ (ci_promises _ _ _ Hinv)).
  - apply Forall2_cons_inv_l in Hbs as (b & bs' & Hpb & Hbs & ->).
    destruct (read_takes _ _ _ _ Hinv) as (ch1 & Hrd & Hinv1 & Hh & Hc1 & He & _).
    unfold generator_next. rewrite Hrd.
    rewrite <- (slot_value_heap ch ch1 p Hh) in Hpb.
    rewrite (slot_value_received _ _ _ Hpb). simpl.
    destruct (IH bs' ch1 rs fuel (acc ++ [b]) Hinv1) as (ch2 & -> & Hz & Hst).
    + congruence.
    + by eapply slots_same_heap.
    + simpl in Hfuel. lia.
    + exists ch2. rewrite He, <- app_assoc. split; [done|]. split; [done|].
      rewrite Hst. unfold state. by rewrite Hc1, He.
Qed.

Lemma for_await_open_suspends ps : ∀ bs ch rs fuel acc,
  chan_inv ch ps rs → closed ch = false →
  Forall2 (λ p b, slot_value ch p = Some b) ps bs →
  (length ps < fuel)%nat →
  ∃ ch', for_await fuel ch acc
         = (ch', acc ++ bs, Suspended (length (heap ch))) ∧
         received ch' (Slot (length (heap ch))) = None ∧
         closed ch' = false ∧
         Q.elements (resolvers ch') = rs ++ [length (heap ch)] ∧
         Q.size (promises ch') = 0.
Proof.
  induction ps as [|p ps IH]; intros bs ch rs fuel acc Hinv Hc Hbs Hfuel;
    (destruct fuel as [|fuel]; [simpl in Hfuel; lia|]); simpl.
  - apply Forall2_nil_inv_l in Hbs as ->. unfold generator_next.
    destruct (read_waits _ _ Hinv Hc) as (ch' & -> & Hinv' & Hh & Hc').
    assert (Hrec : received ch' (Slot (length (heap ch))) = None).
    { simpl. by rewrite Hh, list_lookup_middle. }
    rewrite Hrec, app_nil_r. exists ch'. split; [done|]. split; [done|].
    split; [done|]. split.
    + by apply elements_represents, (ci_resolvers _ _ _ Hinv').
    + by rewrite (represents_size _ _ (ci_promises _ _ _ Hinv')).
  - apply Forall2_cons_inv_l in Hbs as (b & bs' & Hpb & Hbs & ->).
    destruct (read_takes _ _ _ _ Hinv) as (ch1 & Hrd & Hinv1 & Hh & Hc1 & He & _).
    unfold generator_next. rewrite Hrd.
    rewrite <- (slot_value_heap ch ch1 p Hh) in Hpb.
    rewrite (slot_value_received _ _ _ Hpb). simpl.
    destruct (IH bs' ch1 rs fuel (acc ++ [b]) Hinv1) as (ch2 & -> & Hrest).
    + congruence.
    + by eapply slots_same_heap.
    + simpl in Hfuel. lia.
    + exists ch2. rewrite Hh in Hrest. by rewrite Hh, <- app_assoc.
Qed.

(** X11.  On a closed channel [for await] produces every buffered value,
    in order, and only then ends cleanly (closed without error) or fails
    with the stored error; it leaves the channel drained and its [state]
    as it was. *)
Theorem for_await_drains_closed ch bs fuel :
  reachable ch → closed ch = true → buffered_values ch = Some bs →
  (length bs < fuel)%nat →
  ∃ ch', for_await fuel ch []
         = (ch', bs,
            match error ch with Some e => Fails e | None => EndsCleanly end) ∧
         Q.size (promises ch') = 0 ∧ state ch' = state ch.
Proof.
  intros Hre Hc Hbs Hfuel. destruct (reachable_inv _ Hre) as (ps & rs & Hinv).
  pose proof (buffered_values_inv _ _ _ _ Hinv Hbs) as Hall.
  apply (for_await_closed_drains ps bs ch rs fuel [] Hinv Hc Hall).
  by rewrite (Forall2_length _ _ _ Hall).
Qed.

(** X12.  On an open channel [for await] produces every buffered value, in
    order, and is then suspended on a pending promise, queued behind the
    readers that were already waiting: left alone it neither ends nor
    fails. *)
Theorem for_await_waits_while_open ch bs fuel :
  reachable ch → closed ch = false → buffered_values ch = Some bs →
  (length bs < fuel)%nat →
  ∃ ch', for_await fuel ch [] = (ch', bs, Suspended (length (heap ch))) ∧
         received ch' (Slot (length (heap ch))) = None ∧
         closed ch' = false ∧
         Q.elements (resolvers ch')
         = Q.elements (resolvers ch) ++ [length (heap ch)] ∧
         Q.size (promises ch') = 0.
Proof.
  intros Hre Hc Hbs Hfuel. destruct (reachable_inv _ Hre) as (ps & rs & Hinv).
  pose proof (buffered_values_inv _ _ _ _ Hinv Hbs) as Hall.
  rewrite (elements_represents _ _ (ci_resolvers _ _ _ Hinv)).
  apply (for_await_open_suspends ps bs ch rs fuel [] Hinv Hc Hall).
  by rewrite (Forall2_length _ _ _ Hall).
Qed.

End More.

(** *** The theorems at concrete channels *)

Lemma reads_receive_by_position_witness :
  received
    (fst (run_observe (createUnboundedAsyncChannel (T:=Z) (E:=string))
            [Read; Write 1; Write 2; Read; Read; Close (Some "boom"%string)]))
    (Slot 2%nat)
  = Some (Closed (Some "boom"%string)).
Proof.
  apply (reads_receive_by_position
           [Read; Write 1; Write 2; Read; Read; Close (Some "boom"%string)]
           2%nat (Slot 2%nat)).
  reflexivity.
Defined.

Lemma queue_sizes_count_backlog_witness :
  Q.size (resolvers (run (createUnboundedAsyncChannel (T:=Z) (E:=string))
                         [Read; Read; Write 1; Read]))
  = 2.
Proof.
  refine (proj2 (queue_sizes_count_backlog
                   (T:=Z) (E:=string) [Read; Read; Write 1; Read]) _).
  reflexivity.
Defined.

Lemma write_acknowledges_witness :
  snd (write (run (createUnboundedAsyncChannel (T:=Z) (E:=string)) [Read]) 5)
  = Returns (NotClosed 5).
Proof.
  refine (proj1 (write_acknowledges
                   (run (createUnboundedAsyncChannel (T:=Z) (E:=string)) [Read])
                   5 _)).
  by exists [Read].
Defined.

Lemma close_notifies_waiting_readers_witness :
  Forall
    (λ r,
       received (run (createUnboundedAsyncChannel (T:=Z) (E:=string))
                     [Read; Read])
                (Slot r) = None ∧
       received
         (fst (close (run (createUnboundedAsyncChannel (T:=Z) (E:=string))
                          [Read; Read])
                     (Some "boom"%string)))
         (Slot r)
       = Some (Closed (Some "boom"%string)))
    [0%nat; 1%nat].
Proof.
  refine (proj1 (proj2
    (close_notifies_waiting_readers
       (run (createUnboundedAsyncChannel (T:=Z) (E:=string)) [Read; Read])
       (Some "boom"%string) _ _))).
  - by exists [Read; Read].
  - reflexivity.
Defined.

Lemma for_await_drains_closed_witness :
  ∃ ch' : Channel Z string,
    for_await 3
      (run createUnboundedAsyncChannel
           [Write 1; Write 2; Close (Some "boom"%string)]) []
    = (ch', [1; 2], Fails "boom"%string) ∧
    Q.size (promises ch') = 0 ∧
    state ch' = mkState true (Some "boom"%string).
Proof.
  apply (for_await_drains_closed
           (run createUnboundedAsyncChannel
                [Write 1; Write 2; Close (Some "boom"%string)])
           [1; 2] 3).
  - by exists [Write 1; Write 2; Close (Some "boom"%string)].
  - reflexivity.
  - reflexivity.
  - simpl. lia.
Defined.

Lemma for_await_waits_while_open_witness :
  ∃ ch' : Channel Z string,
    for_await 3 (run createUnboundedAsyncChannel [Write 1; Write 2]) []
    = (ch', [1; 2], Suspended 2%nat) ∧
    received ch' (Slot 2%nat) = None ∧
    closed ch' = false ∧
    Q.elements (resolvers ch') = [2%nat] ∧
    Q.size (promises ch') = 0.
Proof.
  apply (for_await_waits_while_open
           (run createUnboundedAsyncChannel [Write 1; Write 2]) [1; 2] 3).
  - by exists [Write 1; Write 2].
  - reflexivity.
  - reflexivity.
  - simpl. lia.
Defined.

End ChannelMore.


(* ================================================================== *)
(** * The repository's unit tests, replayed on the model *)
(* ================================================================== *)

Module Tests.
Import UnboundedAsyncChannel.
Local Open Scope string_scope.

(** [LinkedListQueue.test.ts]: "deque should return null when queue is
    empty". *)
Example test_dequeue_empty :
  Q.dequeue (Q.createLinkedListQueue (T:=string))
  = (Q.createLinkedListQueue, None).
Proof. reflexivity. Qed.

(** [LinkedListQueue.test.ts]: "should enqueue and dequeue objects". *)
Example test_enqueue_dequeue :
  Q.cl_dequeued
    (Q.perform (Q.request_iterator Q.createLinkedListQueue)
       [Q.DoEnqueue "a"; Q.DoDequeue; Q.DoDequeue;
        Q.DoEnqueue "b"; Q.DoEnqueue "c"; Q.DoDequeue; Q.DoDequeue; Q.DoDequeue;
        Q.DoEnqueue "d"; Q.DoEnqueue "e"; Q.DoEnqueue "f"; Q.DoDequeue;
        Q.DoEnqueue "g"; Q.DoDequeue; Q.DoDequeue; Q.DoDequeue; Q.DoDequeue])
  = [Some "a"; None; Some "b"; Some "c"; None; Some "d"; Some "e"; Some "f";
     Some "g"; None].
Proof. reflexivity. Qed.

Example test_sizes :
  Q.size <$>
    [ Q.cl_queue (Q.perform (Q.request_iterator Q.createLinkedListQueue)
                    [Q.DoEnqueue "a"]);
      Q.cl_queue (Q.perform (Q.request_iterator Q.createLinkedListQueue)
                    [Q.DoEnqueue "a"; Q.DoDequeue; Q.DoDequeue]);
      Q.cl_queue (Q.perform (Q.request_iterator Q.createLinkedListQueue)
                    [Q.DoEnqueue "a"; Q.DoDequeue; Q.DoDequeue;
                     Q.DoEnqueue "b"; Q.DoEnqueue "c"]);
      Q.cl_queue (Q.perform (Q.request_iterator Q.createLinkedListQueue)
                    [Q.DoEnqueue "d"; Q.DoEnqueue "e"; Q.DoEnqueue "f";
                     Q.DoDequeue; Q.DoEnqueue "g"]) ]
  = [1; 0; 2; 3].
Proof. reflexivity. Qed.

(** [UnboundedAsyncChannel.test.ts]: "write a value, read it, write more and
    read again". *)
Example test_write_read_write_read :
  received (run (createUnboundedAsyncChannel (T:=Z) (E:=string))
                [Write 1; Read; Write 2; Read])
  <$> [Slot 0%nat; Slot 1%nat]
  = [Some (NotClosed 1); Some (NotClosed 2)].
Proof. reflexivity. Qed.

(** "try to read value when channel is empty, write value later". *)
Example test_read_then_write :
  snd (read (createUnboundedAsyncChannel (T:=Z) (E:=string))) = Slot 0%nat ∧
  received (run (createUnboundedAsyncChannel (T:=Z) (E:=string)) [Read]) (Slot 0%nat)
  = None ∧
  received (run (createUnboundedAsyncChannel (T:=Z) (E:=string)) [Read; Write 1])
           (Slot 0%nat)
  = Some (NotClosed 1).
Proof. repeat split. Qed.

(** "create channel, close it with error". *)
Example test_close_with_error :
  snd (read (run (createUnboundedAsyncChannel (T:=Z) (E:=string)) [Close (Some "test error")]))
  = Direct (Closed (Some "test error")) ∧
  snd (write (run (createUnboundedAsyncChannel (T:=Z) (E:=string)) [Close (Some "test error")]) 1)
  = Returns (Closed (Some "test error")) ∧
  state (run (createUnboundedAsyncChannel (T:=Z) (E:=string))
             [Close (Some "test error"); Read; Write 1; Read])
  = mkState true (Some "test error").
Proof. repeat split. Qed.

(** "closing channel with error should resolve pending read calls". *)
Example test_close_resolves_pending_reads :
  received (run (createUnboundedAsyncChannel (T:=Z) (E:=string))
                [Read; Read; Close (Some "test error")])
  <$> [Slot 0%nat; Slot 1%nat]
  = [Some (Closed (Some "test error")); Some (Closed (Some "test error"))].
Proof. reflexivity. Qed.

(** "if closed with error, any further close calls should not change that
    error". *)
Example test_later_close_ignored :
  snd (read (run (createUnboundedAsyncChannel (T:=Z) (E:=string))
                 [Close (Some "test error"); Read; Close None; Read;
                  Close (Some "another error")]))
  = Direct (Closed (Some "test error")).
Proof. reflexivity. Qed.

(** "write values, close without error and read using for await of". *)
Example test_for_await_clean :
  snd (fst (for_await 10
              (run (createUnboundedAsyncChannel (T:=Z) (E:=string))
                   [Write 0; Write 1; Write 2; Close None]) []))
  = [0; 1; 2] ∧
  snd (for_await 10
         (run (createUnboundedAsyncChannel (T:=Z) (E:=string))
              [Write 0; Write 1; Write 2; Close None]) [])
  = EndsCleanly.
Proof. split; reflexivity. Qed.

End Tests.
